(** * memory_replay: the worker registry of [Threads.cpp]

    A shallow embedding of [src/memory_replay/Threads.cpp] and the
    properties of its open-addressing worker table.

    Conventions.
    - The target is LP64: [size_t] and [uint64_t] are 64-bit unsigned and are
      values of [N] with the reduction modulo [2^64] written out wherever the
      C++ arithmetic can wrap; [pid_t] is a signed integer, a value of [Z].
    - [threads_] is the array of [max_threads_] slots, a [list]; the extent of
      the array is [max_threads_], so the latter is read off the list.
    - Calls that end the process ([err], [errx]) and undefined behaviour are
      results of type [failure].
    - Whether [mmap] grants the region is up to the host; the constructor
      takes the host's answer as a parameter.
    - The worker of a slot runs concurrently with the dispatcher but touches
      only its own slot, and only between [SetPending] and [ClearPending];
      the embedding lets it run at the points where the dispatcher side
      blocks on it ([WaitForReady], [pthread_join]). *)

From stdpp Require Import base numbers list sorting.
From Stdlib Require Import ZArith NArith Lia.

(** ** Results of calls *)

Inductive failure :=
| TooManyThreads   (* errx "Too many threads created" *)
| NoEmptyEntries   (* errx "No empty entries found" *)
| MapFailed        (* err  "Failed to map in memory for Threads" *)
| JoinFailed       (* err  "pthread_join failed" *)
| DivideByZero     (* undefined: [%] or [/] by zero *)
| OutOfBounds      (* undefined: access past the end of [threads_] *)
| Blocked          (* a blocking call that is never released *)
| OutOfFuel.       (* the loop did not finish within the given fuel *)

Inductive result (A : Type) :=
| Ok (a : A)
| Fail (f : failure).
Arguments Ok {A} a.
Arguments Fail {A} f.

#[global] Instance result_ret : MRet result := fun A a => Ok a.
#[global] Instance result_bind : MBind result := fun A B k m =>
  match m with
  | Ok a => k a
  | Fail f => Fail f
  end.

(** 64-bit unsigned wrap-around. *)
Definition wrap64 (n : N) : N := (n mod 2 ^ 64)%N.

(** Conversion of a signed integer to [size_t]. *)
Definition to_size_t (z : Z) : N := Z.to_N (z mod 2 ^ 64).

(** ** Work items *)

(** Modelled from the spec: [AllocEntry] is declared in Alloc.h, which is not
    among the sources.  A work item is a tagged allocator operation or the
    [Done] sentinel; the pool never looks inside an operation, it only sees
    the elapsed time its execution reports, so an item carries that scripted
    duration. *)
Inductive AllocEnum := ALLOC_OP | THREAD_DONE.

Record AllocEntry := { type : AllocEnum; duration : N }.

#[global] Instance AllocEnum_eq_dec : EqDecision AllocEnum.
Proof. solve_decision. Defined.

Definition thread_done_entry : AllocEntry := {| type := THREAD_DONE; duration := 0 |}.

(** Modelled from the spec: [AllocExecute] lives in Alloc.cpp, which is not
    among the sources.  It performs one allocator operation and returns the
    elapsed nanoseconds; for the [Done] sentinel there is nothing to perform
    and the time is zero. *)
Definition AllocExecute (entry : AllocEntry) : N :=
  match type entry with
  | THREAD_DONE => 0%N
  | ALLOC_OP => wrap64 (duration entry)
  end.

(** ** Worker slots *)

Module Thread.

(** The execution context behind [thread_id_]: its [ThreadRunner] is still
    inside [while (true)], or has returned. *)
Inductive pthread := Running | Returned.

(** Modelled from the spec: the members of [Thread] are declared in
    Thread.h, which is not among the sources.  [thread_id_] is [None]
    while no execution context is attached to the slot (before
    [pthread_create], after [pthread_join]); [pending_] is the signal,
    [true] for pending and [false] for idle; [entry_] is the work slot.
    The pointer table [pointers_] is passed through uninterpreted and is
    left out. *)
Record t := mk {
  tid_ : Z;
  thread_id_ : option pthread;
  total_time_nsecs_ : N;
  pending_ : bool;
  entry_ : AllocEntry
}.

(** A slot as the array is constructed: zero-filled fresh mapping. *)
Definition empty : t :=
  {| tid_ := 0; thread_id_ := None; total_time_nsecs_ := 0;
     pending_ := false; entry_ := {| type := ALLOC_OP; duration := 0 |} |}.

Definition set_tid (th : t) (tid : Z) : t :=
  {| tid_ := tid; thread_id_ := thread_id_ th;
     total_time_nsecs_ := total_time_nsecs_ th;
     pending_ := pending_ th; entry_ := entry_ th |}.

Definition set_thread_id (th : t) (h : option pthread) : t :=
  {| tid_ := tid_ th; thread_id_ := h;
     total_time_nsecs_ := total_time_nsecs_ th;
     pending_ := pending_ th; entry_ := entry_ th |}.

Definition set_total_time_nsecs (th : t) (n : N) : t :=
  {| tid_ := tid_ th; thread_id_ := thread_id_ th;
     total_time_nsecs_ := n;
     pending_ := pending_ th; entry_ := entry_ th |}.

Definition set_pending (th : t) (b : bool) : t :=
  {| tid_ := tid_ th; thread_id_ := thread_id_ th;
     total_time_nsecs_ := total_time_nsecs_ th;
     pending_ := b; entry_ := entry_ th |}.

(** Modelled from the spec: the handshake methods of Thread.h. *)
Definition SetAllocEntry (th : t) (entry : AllocEntry) : t :=
  {| tid_ := tid_ th; thread_id_ := thread_id_ th;
     total_time_nsecs_ := total_time_nsecs_ th;
     pending_ := pending_ th; entry_ := entry |}.

Definition GetAllocEntry (th : t) : AllocEntry := entry_ th.

Definition SetPending (th : t) : t := set_pending th true.

Definition ClearPending (th : t) : t := set_pending th false.

Definition AddTimeNsecs (th : t) (nsecs : N) : t :=
  set_total_time_nsecs th (wrap64 (total_time_nsecs_ th + nsecs)).

(** [ThreadRunner]: the loop of the worker, from the point where it calls
    [WaitForPending].  It stops when [WaitForPending] suspends it (the
    signal is idle) or when it returns after the [Done] sentinel; the
    second component says which. *)
Fixpoint ThreadRunner (fuel : nat) (thread : t) : option (t * pthread) :=
  match fuel with
  | O => None
  | S fuel =>
      if negb (pending_ thread) then Some (thread, Running)
      else
        let entry := GetAllocEntry thread in
        let thread := AddTimeNsecs thread (AllocExecute entry) in
        let thread_done := bool_decide (type entry = THREAD_DONE) in
        let thread := ClearPending thread in
        if thread_done then Some (thread, Returned)
        else ThreadRunner fuel thread
  end.

(** Let the worker of a slot run as far as it can.  Two rounds of the loop
    always suffice: the first clears the signal, the second suspends. *)
Definition schedule (th : t) : t :=
  match thread_id_ th with
  | Some Running =>
      match ThreadRunner 2 th with
      | Some (th', s) => set_thread_id th' (Some s)
      | None => th
      end
  | _ => th
  end.

(** Modelled from the spec: [WaitForReady] (await_idle) blocks the caller
    until the signal is idle. *)
Definition WaitForReady (th : t) : result t :=
  let th := schedule th in
  if pending_ th then Fail Blocked else Ok th.

(** [pthread_join]: fails on a slot without execution context, otherwise
    blocks until the worker's loop has returned and releases the context. *)
Definition pthread_join (th : t) : result t :=
  match thread_id_ th with
  | None => Fail JoinFailed
  | Some _ =>
      let th := schedule th in
      match thread_id_ th with
      | Some Returned => Ok (set_thread_id th None)
      | _ => Fail Blocked
      end
  end.

(** [pthread_create] attaches a fresh execution context running
    [ThreadRunner]; failure of the operating system to do so is not
    modelled. *)
Definition pthread_create (th : t) : t := set_thread_id th (Some Running).

End Thread.

(** ** The host *)

(** [mmap(nullptr, length, PROT_READ | PROT_WRITE, MAP_PRIVATE | MAP_ANON, -1, 0)]:
    [true] when the call returns a fresh zero-filled mapping, [false] when it
    returns [MAP_FAILED].  A length of zero is always refused; whether another
    length is granted is up to the host, for which [host] stands: [host
    length] tells whether the host grants a private anonymous mapping of
    [length] bytes. *)
Definition mmap (host : N → bool) (length : N) : bool :=
  if (length =? 0)%N then false else host length.

(** ** The registry *)

(** The calls the registry makes on a worker while it waits for it or shuts
    it down, in the order it makes them; [index] is the slot. *)
Inductive event :=
| EvSetAllocEntry (index : N) (entry : AllocEntry)
| EvSetPending (index : N)
| EvJoin (index : N)
| EvWaitForReady (index : N).

Module Threads.

(** The members of [Threads] that the code reads and writes; [pointers_] is
    only passed on and is left out. *)
Record t := mk {
  threads_ : list Thread.t;
  num_threads_ : N;
  data_size_ : N;
  total_time_nsecs_ : N
}.

Definition max_threads_ (st : t) : N := N.of_nat (length (threads_ st)).

Definition set_threads (st : t) (l : list Thread.t) : t :=
  {| threads_ := l; num_threads_ := num_threads_ st;
     data_size_ := data_size_ st; total_time_nsecs_ := total_time_nsecs_ st |}.

Definition set_num_threads (st : t) (n : N) : t :=
  {| threads_ := threads_ st; num_threads_ := n;
     data_size_ := data_size_ st; total_time_nsecs_ := total_time_nsecs_ st |}.

Definition set_total_time_nsecs (st : t) (n : N) : t :=
  {| threads_ := threads_ st; num_threads_ := num_threads_ st;
     data_size_ := data_size_ st; total_time_nsecs_ := n |}.

(** [threads_[index]], undefined past the end of the array. *)
Definition slot (st : t) (index : N) : result Thread.t :=
  match threads_ st !! N.to_nat index with
  | Some th => Ok th
  | None => Fail OutOfBounds
  end.

Definition set_slot (st : t) (index : N) (th : Thread.t) : t :=
  set_threads st (<[N.to_nat index := th]> (threads_ st)).

(** [data_size_ = (max_threads_ * sizeof(Thread) + pagesize - 1) & ~(pagesize - 1)]
    in 64-bit unsigned arithmetic; [- 1] is the addition of [2^64 - 1]. *)
Definition region_size (pagesize sizeof_Thread max_threads : N) : N :=
  N.land
    (wrap64 (wrap64 (wrap64 (max_threads * sizeof_Thread) + pagesize) + (2 ^ 64 - 1)))
    (N.lnot (wrap64 (pagesize + (2 ^ 64 - 1))) 64).

(** The constructor.  [pagesize] is what [getpagesize()] returns,
    [sizeof_Thread] is [sizeof(Thread)] and [host] decides which mappings
    [mmap] grants; when [mmap] returns [MAP_FAILED] the constructor ends
    with "Failed to map in memory".  The counters start at zero (their
    initialisers are in Threads.h; the spec has the registry start with all
    slots zero and an active count of zero). *)
Definition Threads (host : N → bool) (pagesize sizeof_Thread max_threads : N)
  : result t :=
  let data_size := region_size pagesize sizeof_Thread max_threads in
  if (sizeof_Thread =? 0)%N then Fail DivideByZero
  else
    let max_threads := (data_size / sizeof_Thread)%N in
    if mmap host data_size then
      Ok {| threads_ := replicate (N.to_nat max_threads) Thread.empty;
            num_threads_ := 0;
            data_size_ := data_size;
            total_time_nsecs_ := 0 |}
    else Fail MapFailed.

(** [tid % max_threads_]: [tid] is converted to [size_t] first. *)
Definition GetHashEntry (st : t) (tid : Z) : result N :=
  if (max_threads_ st =? 0)%N then Fail DivideByZero
  else Ok (to_size_t tid mod max_threads_ st)%N.

(** [if (++index == max_threads_) index = 0]. *)
Definition next_index (st : t) (index : N) : N :=
  if (index + 1 =? max_threads_ st)%N then 0%N else (index + 1)%N.

(** The loop of [FindEmptyEntry]; [remaining] is [max_threads_ - entries].
    [index] stays below [max_threads_], so [++index] does not wrap. *)
Fixpoint FindEmptyEntry_loop (st : t) (remaining : nat) (index : N)
  : result (option N) :=
  match remaining with
  | O => Ok None
  | S remaining =>
      th ← slot st index;
      if (Thread.tid_ th =? 0)%Z then Ok (Some index)
      else FindEmptyEntry_loop st remaining (next_index st index)
  end.

Definition FindEmptyEntry (st : t) (tid : Z) : result (option N) :=
  index ← GetHashEntry st tid;
  FindEmptyEntry_loop st (N.to_nat (max_threads_ st)) index.

(** [CreateThread] returns the slot as its index in [threads_]. *)
Definition CreateThread (st : t) (tid : Z) : result (t * N) :=
  if (num_threads_ st =? max_threads_ st)%N then Fail TooManyThreads
  else
    found ← FindEmptyEntry st tid;
    match found with
    | None => Fail NoEmptyEntries
    | Some index =>
        thread ← slot st index;
        let thread := Thread.set_tid thread tid in
        let thread := Thread.set_total_time_nsecs thread 0 in
        let thread := Thread.pthread_create thread in
        let st := set_slot st index thread in
        Ok (set_num_threads st (wrap64 (num_threads_ st + 1)), index)
    end.

(** The loop of [FindThread].  Nothing bounds the number of rounds when
    [num_threads_] exceeds the number of occupied slots, hence the fuel. *)
Fixpoint FindThread_loop (fuel : nat) (st : t) (tid : Z) (index entries : N)
  : result (option N) :=
  if (entries =? 0)%N then Ok None
  else
    match fuel with
    | O => Fail OutOfFuel
    | S fuel =>
        th ← slot st index;
        let cur_tid := Thread.tid_ th in
        if (cur_tid =? tid)%Z then Ok (Some index)
        else
          let entries := if (cur_tid =? 0)%Z then entries else (entries - 1)%N in
          FindThread_loop fuel st tid (next_index st index) entries
    end.

Definition FindThread (fuel : nat) (st : t) (tid : Z) : result (option N) :=
  index ← GetHashEntry st tid;
  FindThread_loop fuel st tid index (num_threads_ st).

(** The loop of [WaitForAllToQuiesce]; [remaining] is the number of slots
    from [i] to the end of the array, past which the read is undefined. *)
Fixpoint WaitForAllToQuiesce_loop (remaining : nat) (st : t) (i threads : N)
  : result (t * list event) :=
  if (threads <? num_threads_ st)%N then
    match remaining with
    | O => Fail OutOfBounds
    | S remaining =>
        th ← slot st i;
        if (Thread.tid_ th =? 0)%Z then
          WaitForAllToQuiesce_loop remaining st (i + 1)%N threads
        else
          th' ← Thread.WaitForReady th;
          '(st', log) ← WaitForAllToQuiesce_loop remaining (set_slot st i th')
                          (i + 1)%N (threads + 1)%N;
          Ok (st', EvWaitForReady i :: log)
    end
  else Ok (st, []).

Definition WaitForAllToQuiesce (st : t) : result (t * list event) :=
  WaitForAllToQuiesce_loop (length (threads_ st)) st 0 0.

(** [Finish(threads_ + index)]; [num_threads_--] is the addition of
    [2^64 - 1]. *)
Definition Finish (st : t) (index : N) : result t :=
  thread ← slot st index;
  thread ← Thread.pthread_join thread;
  let st := set_total_time_nsecs st
              (wrap64 (total_time_nsecs_ st + Thread.total_time_nsecs_ thread)) in
  let thread := Thread.set_tid thread 0 in
  let st := set_slot st index thread in
  Ok (set_num_threads st (wrap64 (num_threads_ st + (2 ^ 64 - 1)))).

(** The loop of [FinishAll]; [remaining] is [max_threads_ - i]. *)
Fixpoint FinishAll_loop (remaining : nat) (st : t) (i : N)
  : result (t * list event) :=
  match remaining with
  | O => Ok (st, [])
  | S remaining =>
      th ← slot st i;
      if (Thread.tid_ th =? 0)%Z then FinishAll_loop remaining st (i + 1)%N
      else
        let st := set_slot st i
                    (Thread.SetPending (Thread.SetAllocEntry th thread_done_entry)) in
        st ← Finish st i;
        '(st', log) ← FinishAll_loop remaining st (i + 1)%N;
        Ok (st', EvSetAllocEntry i thread_done_entry :: EvSetPending i :: EvJoin i :: log)
  end.

Definition FinishAll (st : t) : result (t * list event) :=
  FinishAll_loop (length (threads_ st)) st 0.

End Threads.

(** ** The dispatcher side *)

(** Modelled from the spec: the Dispatcher is main.cpp, which is not among
    the sources.  For one trace entry it obtains the worker of the entry's
    thread identifier, creating it the first time the identifier is seen,
    hands it the work item and waits until the worker is idle again. *)
Definition Dispatch (st : Threads.t) (tid : Z) (entry : AllocEntry)
  : result Threads.t :=
  found ← Threads.FindThread (length (Threads.threads_ st)) st tid;
  '(st, index) ← match found with
                 | Some index => Ok (st, index)
                 | None => Threads.CreateThread st tid
                 end;
  th ← Threads.slot st index;
  th ← Thread.WaitForReady (Thread.SetPending (Thread.SetAllocEntry th entry));
  Ok (Threads.set_slot st index th).

Fixpoint Replay (st : Threads.t) (script : list (Z * AllocEntry))
  : result Threads.t :=
  match script with
  | [] => Ok st
  | (tid, entry) :: script => st ← Dispatch st tid entry; Replay st script
  end.


(** ** Vocabulary of the specification *)

(** A slot is occupied when its identifier is not zero. *)
Definition occupied (th : Thread.t) : Prop := Thread.tid_ th ≠ 0%Z.

#[global] Instance occupied_dec th : Decision (occupied th).
Proof. unfold occupied. apply _. Defined.

(** A slot is free when no execution context is attached to it. *)
Definition free (th : Thread.t) : Prop := Thread.thread_id_ th = None.

(** A slot is live when its worker is still running its loop. *)
Definition live (th : Thread.t) : Prop :=
  Thread.thread_id_ th = Some Thread.Running.

Definition count_occupied (l : list Thread.t) : nat :=
  length (filter occupied l).

(** Accumulated time of the occupied slots. *)
Fixpoint occupied_time (l : list Thread.t) : N :=
  match l with
  | [] => 0%N
  | th :: l =>
      if decide (occupied th) then (Thread.total_time_nsecs_ th + occupied_time l)%N
      else occupied_time l
  end.

(** Indices of the occupied slots of [l] in storage order, [l] starting at
    index [i]. *)
Fixpoint occupied_indices (i : N) (l : list Thread.t) : list N :=
  match l with
  | [] => []
  | th :: l =>
      if decide (occupied th) then i :: occupied_indices (i + 1) l
      else occupied_indices (i + 1) l
  end.

(** The array has a positive extent that fits [size_t]. *)
Definition wf (st : Threads.t) : Prop :=
  (0 < Threads.max_threads_ st < 2 ^ 64)%N.

(** The free-slot invariant: [num_threads_] counts the occupied slots, and a
    slot is free exactly when its identifier is zero. *)
Record Inv (st : Threads.t) : Prop := {
  inv_count : Threads.num_threads_ st = N.of_nat (count_occupied (Threads.threads_ st));
  inv_free : Forall (fun th => Thread.tid_ th = 0%Z ↔ free th) (Threads.threads_ st)
}.

(** Every occupied slot has a worker running its loop. *)
Definition all_live (st : Threads.t) : Prop :=
  Forall (fun th => occupied th → live th) (Threads.threads_ st).

(** The identifier held by slot [i], if [i] is a slot. *)
Definition tid_at (st : Threads.t) (i : nat) : option Z :=
  Thread.tid_ <$> Threads.threads_ st !! i.

(** [i] is the first slot holding [tid] on the probe sequence that starts at
    [h] and wraps around at the end of the array. *)
Definition first_on_probe (st : Threads.t) (h : N) (tid : Z) (i : N) : Prop :=
  ∃ k : nat,
    k < length (Threads.threads_ st)
    ∧ N.to_nat i = (N.to_nat h + k) `mod` length (Threads.threads_ st)
    ∧ tid_at st (N.to_nat i) = Some tid
    ∧ ∀ j : nat, j < k →
        tid_at st ((N.to_nat h + j) `mod` length (Threads.threads_ st)) ≠ Some tid.

(** The slot reached from a match at offset [p.1] of a scan that started
    [k] probes after the hash index [h]. *)
Definition probe_index (st : Threads.t) (h k : nat) (p : nat * Thread.t) : N :=
  N.of_nat ((h + (k + p.1)) `mod` length (Threads.threads_ st)).

(** What a successful [CreateThread] does to the registry. *)
Definition created (st : Threads.t) (tid : Z) (i : N) (st' : Threads.t) : Prop :=
  ∃ th th',
    Threads.threads_ st !! N.to_nat i = Some th
    ∧ Thread.tid_ th = 0%Z
    ∧ th' = Thread.pthread_create
              (Thread.set_total_time_nsecs (Thread.set_tid th tid) 0)
    ∧ st' = Threads.set_num_threads (Threads.set_slot st i th')
              (wrap64 (Threads.num_threads_ st + 1)).


(** The time the registry accounts for: what it has retired and what its
    occupied slots have accumulated. *)
Definition accounted_time (st : Threads.t) : N :=
  (Threads.total_time_nsecs_ st + occupied_time (Threads.threads_ st))%N.

(** ** Example registries *)

(** An operation item with a scripted duration. *)
Definition operation (nsecs : N) : AllocEntry :=
  {| type := ALLOC_OP; duration := nsecs |}.

(** An occupied slot whose worker is idle in its loop. *)
Definition worker (tid : Z) (nsecs : N) : Thread.t :=
  {| Thread.tid_ := tid; Thread.thread_id_ := Some Thread.Running;
     Thread.total_time_nsecs_ := nsecs; Thread.pending_ := false;
     Thread.entry_ := operation 0 |}.

(** A host with a 47-bit user address space: it grants the mappings that
    are shorter than that. *)
Definition host47 (length : N) : bool := (length <? 2 ^ 47)%N.

(** The registry of four slots that [Threads host47 4096 1024 4]
    constructs. *)
Definition fresh_registry : Threads.t :=
  {| Threads.threads_ := replicate 4 Thread.empty;
     Threads.num_threads_ := 0;
     Threads.data_size_ := 4096;
     Threads.total_time_nsecs_ := 0 |}.

(** The collision chain of the end-to-end scenario: identifiers 5, 9 and 13
    all hash to slot 1; 9, in the middle of the chain, has been retired
    with 20 ns on its account. *)
Definition chain_registry : Threads.t :=
  {| Threads.threads_ := [Thread.empty; worker 5 10; Thread.empty; worker 13 30];
     Threads.num_threads_ := 2;
     Threads.data_size_ := 4096;
     Threads.total_time_nsecs_ := 20 |}.

(** One worker, whose identifier hashes to slot 0. *)
Definition single_registry : Threads.t :=
  {| Threads.threads_ := [worker 4 0; Thread.empty; Thread.empty; Thread.empty];
     Threads.num_threads_ := 1;
     Threads.data_size_ := 4096;
     Threads.total_time_nsecs_ := 0 |}.

Definition example_script : list (Z * AllocEntry) :=
  [(5, operation 10); (9, operation 20); (13, operation 30); (5, operation 7)]%Z.

(** The registry after the replay of [example_script]. *)
Definition replayed_registry : Threads.t :=
  Eval vm_compute in
    match Replay fresh_registry example_script with
    | Ok st => st
    | Fail _ => fresh_registry
    end.

(** [replayed_registry] with the [Done] sentinel handed to slot 2. *)
Definition signalled_registry : Threads.t :=
  Eval vm_compute in
    match Threads.slot replayed_registry 2 with
    | Ok th =>
        Threads.set_slot replayed_registry 2
          (Thread.SetPending (Thread.SetAllocEntry th thread_done_entry))
    | Fail _ => replayed_registry
    end.

(** The fresh registry after [CreateThread] with the identifier zero. *)
Definition zero_created_registry : Threads.t :=
  Eval vm_compute in
    match Threads.CreateThread fresh_registry 0 with
    | Ok (st, _) => st
    | Fail _ => fresh_registry
    end.

(** A worker with the [Done] sentinel pending. *)
Definition signalled_worker : Thread.t :=
  Thread.SetPending (Thread.SetAllocEntry (worker 9 20) thread_done_entry).



(** Rounding [x] up to the next multiple of [p]. *)
Definition round_up (x p : N) : N := ((x + p - 1) / p * p)%N.
(** * Properties *)

(** ** Machine arithmetic and the size of the region *)

Lemma wrap64_small n : (n < 2 ^ 64)%N → wrap64 n = n.
Proof. unfold wrap64. apply N.mod_small. Qed.

Lemma wrap64_add_l a b : wrap64 (wrap64 a + b) = wrap64 (a + b).
Proof. unfold wrap64. apply N.Div0.add_mod_idemp_l. Qed.

Lemma wrap64_add_r a b : wrap64 (a + wrap64 b) = wrap64 (a + b).
Proof. unfold wrap64. apply N.Div0.add_mod_idemp_r. Qed.

Lemma wrap64_pred n : (0 < n ≤ 2 ^ 64)%N → wrap64 (n + (2 ^ 64 - 1)) = (n - 1)%N.
Proof.
  intros Hn. unfold wrap64.
  replace (n + (2 ^ 64 - 1))%N with ((n - 1) + 1 * 2 ^ 64)%N by lia.
  rewrite N.Div0.mod_add. apply N.mod_small. lia.
Qed.

Lemma log2_lt_64 n : (n < 2 ^ 64)%N → (N.log2 n < 64)%N.
Proof.
  intros Hn. destruct (N.eq_dec n 0) as [->|Hne]; [reflexivity|].
  apply N.log2_lt_pow2; lia.
Qed.

Lemma land_lnot64 x y : (x < 2 ^ 64)%N → N.land x (N.lnot y 64) = N.ldiff x y.
Proof. intros Hx. symmetry. apply N.ldiff_land_low. by apply log2_lt_64. Qed.

Lemma ldiff_ge x y : (x - y ≤ N.ldiff x y)%N.
Proof.
  assert (H : (N.ldiff x y + N.land x y)%N = x).
  { rewrite N.add_nocarry_lxor, N.lxor_lor, N.lor_ldiff_and; try done.
    all: apply N.bits_inj; intros i;
      rewrite N.land_spec, N.ldiff_spec, N.land_spec, N.bits_0;
      destruct (N.testbit x i), (N.testbit y i); done. }
  pose proof (N.land_le_r x y). lia.
Qed.

Lemma region_size_eq p s m :
  (0 < p)%N → (m * s + p - 1 < 2 ^ 64)%N →
  Threads.region_size p s m = N.ldiff (m * s + p - 1) (p - 1).
Proof.
  intros Hp Hov. unfold Threads.region_size.
  rewrite (wrap64_small (m * s)) by lia.
  rewrite wrap64_add_l.
  rewrite wrap64_pred by lia. rewrite wrap64_pred by lia.
  rewrite land_lnot64 by lia. reflexivity.
Qed.

Lemma region_size_lt p s m : (Threads.region_size p s m < 2 ^ 64)%N.
Proof.
  unfold Threads.region_size.
  match goal with |- (N.land ?x ?y < _)%N =>
    pose proof (N.land_le_l x y); assert (x < 2 ^ 64)%N end; [|lia].
  unfold wrap64. apply N.mod_lt. lia.
Qed.

Lemma Threads_Ok host p s m st :
  Threads.Threads host p s m = Ok st →
  s ≠ 0%N
  ∧ Threads.region_size p s m ≠ 0%N
  ∧ host (Threads.region_size p s m) = true
  ∧ st = {| Threads.threads_ :=
              replicate (N.to_nat (Threads.region_size p s m / s)) Thread.empty;
            Threads.num_threads_ := 0;
            Threads.data_size_ := Threads.region_size p s m;
            Threads.total_time_nsecs_ := 0 |}.
Proof.
  unfold Threads.Threads, mmap. destruct (N.eqb_spec s 0); [done|].
  destruct (N.eqb_spec (Threads.region_size p s m) 0); [done|].
  destruct (host _) eqn:Hh; [|done]. by intros [= <-].
Qed.

(** C7 (amended): for a positive page size and slot size and a requested
    maximum such that [max_threads * sizeof(Thread) + pagesize - 1] fits 64
    bits, the region size is that product rounded up to the next multiple of
    the page size when the page size is a power of two; the capacity, the
    region size divided by the slot size, is at least the requested maximum
    for every positive page size; every registry the constructor returns has
    that region size and that capacity; and for a positive requested maximum
    the constructor returns a registry when the host grants the mapping of
    the region and ends with "Failed to map in memory" when it does not. *)
Theorem Threads_region_size (host : N → bool) (p s m : N) :
  (0 < p)%N → (0 < s)%N → (m * s + p - 1 < 2 ^ 64)%N →
  ((∃ k : N, p = (2 ^ k)%N) → Threads.region_size p s m = round_up (m * s) p)
  ∧ (m ≤ Threads.region_size p s m / s)%N
  ∧ (∀ st, Threads.Threads host p s m = Ok st →
       Threads.data_size_ st = Threads.region_size p s m
       ∧ Threads.max_threads_ st = (Threads.data_size_ st / s)%N
       ∧ (m ≤ Threads.max_threads_ st)%N)
  ∧ ((0 < m)%N →
     if host (Threads.region_size p s m)
     then ∃ st, Threads.Threads host p s m = Ok st
     else Threads.Threads host p s m = Fail MapFailed).
Proof.
  intros Hp Hs Hov.
  assert (Hge : (m * s ≤ Threads.region_size p s m)%N).
  { rewrite region_size_eq by done.
    pose proof (ldiff_ge (m * s + p - 1) (p - 1)). lia. }
  assert (Hcap : (m ≤ Threads.region_size p s m / s)%N).
  { apply N.div_le_lower_bound; lia. }
  split; [|split; [done|split]].
  - intros [k ->]. rewrite region_size_eq by done. unfold round_up.
    replace (2 ^ k - 1)%N with (N.ones k) by (rewrite N.ones_equiv; lia).
    rewrite N.ldiff_ones_r, N.shiftl_mul_pow2, N.shiftr_div_pow2.
    reflexivity.
  - intros st (_ & _ & _ & ->)%Threads_Ok.
    unfold Threads.max_threads_. cbn [Threads.data_size_ Threads.threads_].
    by rewrite length_replicate, N2Nat.id.
  - intros Hm. unfold Threads.Threads, mmap.
    destruct (N.eqb_spec s 0); [lia|].
    destruct (N.eqb_spec (Threads.region_size p s m) 0); [nia|].
    destruct (host _); [eexists|]; reflexivity.
Qed.

(** Eight slots of 96 bytes take one page, which holds 42 of them; 128
    slots of [2^40] bytes take the whole of the address space of the host,
    which does not grant them. *)
Lemma Threads_region_size_witness :
  Threads.region_size 4096 96 8 = round_up (8 * 96) 4096
  ∧ (8 ≤ Threads.region_size 4096 96 8 / 96)%N
  ∧ (∃ st, Threads.Threads host47 4096 96 8 = Ok st
       ∧ Threads.data_size_ st = 4096%N
       ∧ Threads.max_threads_ st = 42%N)
  ∧ Threads.Threads host47 4096 (2 ^ 40) 128 = Fail MapFailed.
Proof.
  destruct (Threads_region_size host47 4096 96 8) as (H1 & H2 & H3 & H4); [lia..|].
  split; [apply H1; by exists 12%N|]. split; [exact H2|]. split.
  - specialize (H4 ltac:(lia)).
    change (host47 (Threads.region_size 4096 96 8)) with true in H4.
    destruct H4 as [st Hst]. exists st. split; [exact Hst|].
    destruct (H3 st Hst) as (Hd & Hmax & _). rewrite Hmax, Hd.
    split; reflexivity.
  - destruct (Threads_region_size host47 4096 (2 ^ 40) 128) as (_ & _ & _ & H5);
      [lia..|].
    exact (H5 ltac:(lia)).
Defined.

(** The page size 3 is not a power of two, and the region for two slots of
    one byte has 4 bytes, not 3; the product of [2^63 + 1] slots of two
    bytes wraps around, and the capacity is 2048. *)
Lemma Threads_region_size_counterexample :
  (∃ st, Threads.Threads host47 3 1 2 = Ok st
         ∧ Threads.data_size_ st = 4%N ∧ round_up (2 * 1) 3 = 3%N)
  ∧ (∃ st, Threads.Threads host47 4096 2 (2 ^ 63 + 1) = Ok st
         ∧ Threads.max_threads_ st = 2048%N).
Proof. split; eexists; (split; [vm_compute; reflexivity|]); vm_compute; done. Qed.

(** ** Probing *)

Section probing.
Context (st : Threads.t).
Abbreviation l := (Threads.threads_ st).
Abbreviation len := (length (Threads.threads_ st)).

Lemma rotate_nat_add_mod h k : 0 < len → rotate_nat_add h k len = (h + k) `mod` len.
Proof.
  intros Hlen. unfold rotate_nat_add.
  rewrite <- Nat2Z.inj_add, <- Nat2Z.inj_mod. apply Nat2Z.id.
Qed.

Lemma next_index_rot h k :
  0 < len →
  Threads.next_index st (N.of_nat ((h + k) `mod` len)) = N.of_nat ((h + S k) `mod` len).
Proof.
  intros Hlen. unfold Threads.next_index, Threads.max_threads_.
  assert (Hx : (h + k) `mod` len < len) by (apply Nat.mod_upper_bound; lia).
  assert (Hs : (h + S k) `mod` len = ((h + k) `mod` len + 1) `mod` len).
  { rewrite Nat.Div0.add_mod_idemp_l. f_equal. lia. }
  rewrite Hs. set (x := (h + k) `mod` len) in *.
  destruct (N.eqb_spec (N.of_nat x + 1) (N.of_nat len)) as [He|He].
  - replace (x + 1) with len by lia. by rewrite Nat.Div0.mod_same.
  - rewrite Nat.mod_small by lia. lia.
Qed.

Lemma slot_rot h k th :
  rotate h l !! k = Some th →
  Threads.slot st (N.of_nat ((h + k) `mod` len)) = Ok th.
Proof.
  intros Hk. apply lookup_rotate_r_Some in Hk as [Hk Hlt].
  rewrite rotate_nat_add_mod in Hk by lia.
  unfold Threads.slot. by rewrite Nat2N.id, Hk.
Qed.

Lemma count_occupied_rotate h : count_occupied (rotate h l) = count_occupied l.
Proof.
  unfold count_occupied, rotate.
  rewrite filter_app, length_app, Nat.add_comm, <- length_app, <- filter_app.
  by rewrite take_drop.
Qed.

Lemma drop_cons_inv {A} (R : list A) k a rest :
  drop k R = a :: rest → R !! k = Some a ∧ drop (S k) R = rest.
Proof.
  intros Hd. split.
  - pose proof (lookup_drop R k 0) as H. rewrite Hd, Nat.add_0_r in H. done.
  - replace (S k) with (k + 1) by lia. rewrite <- drop_drop, Hd. done.
Qed.

Lemma FindEmptyEntry_loop_scan h :
  0 < len → ∀ rest k,
  drop k (rotate h l) = rest →
  Threads.FindEmptyEntry_loop st (length rest) (N.of_nat ((h + k) `mod` len))
  = Ok (probe_index st h k <$> list_find (λ th, Thread.tid_ th = 0%Z) rest).
Proof.
  intros Hlen rest. induction rest as [|a rest IH]; intros k Hd; [done|].
  apply drop_cons_inv in Hd as [Ha Hd].
  cbn [length Threads.FindEmptyEntry_loop]. rewrite (slot_rot _ _ _ Ha). cbn.
  destruct (Z.eqb_spec (Thread.tid_ a) 0) as [He|He].
  - rewrite decide_True by done. cbn. unfold probe_index. cbn.
    by rewrite Nat.add_0_r.
  - rewrite decide_False by done. rewrite next_index_rot, (IH (S k)) by done.
    f_equal. destruct (list_find _ rest) as [[j x]|]; [|done]. cbn.
    unfold probe_index. cbn. do 3 f_equal. lia.
Qed.

Lemma count_occupied_cons a rest :
  count_occupied (a :: rest)
  = (if decide (Thread.tid_ a = 0%Z) then 0 else 1) + count_occupied rest.
Proof.
  unfold count_occupied. rewrite filter_cons. unfold occupied at 1.
  destruct (decide (Thread.tid_ a = 0%Z)) as [He|He].
  - rewrite decide_False by (intros H; by apply H). done.
  - rewrite decide_True by done. done.
Qed.

Lemma count_occupied_0 rest :
  count_occupied rest = 0 → Forall (λ th, Thread.tid_ th = 0%Z) rest.
Proof.
  induction rest as [|a rest IH]; [constructor|].
  rewrite count_occupied_cons. destruct (decide _); [|lia].
  intros H. constructor; auto.
Qed.

Lemma FindThread_loop_scan h tid :
  tid ≠ 0%Z → 0 < len → ∀ rest k fuel,
  drop k (rotate h l) = rest →
  length rest ≤ fuel →
  Threads.FindThread_loop fuel st tid (N.of_nat ((h + k) `mod` len))
    (N.of_nat (count_occupied rest))
  = Ok (probe_index st h k <$> list_find (λ th, Thread.tid_ th = tid) rest).
Proof.
  intros Htid Hlen rest. induction rest as [|a rest IH]; intros k fuel Hd Hfuel.
  { destruct fuel; done. }
  apply drop_cons_inv in Hd as [Ha Hd].
  destruct (N.eqb_spec (N.of_nat (count_occupied (a :: rest))) 0) as [Hc|Hc].
  - assert (Hall : Forall (λ th, Thread.tid_ th = 0%Z) (a :: rest))
      by (apply count_occupied_0; lia).
    assert (Hnone : list_find (λ th, Thread.tid_ th = tid) (a :: rest) = None).
    { apply list_find_None. eapply Forall_impl; [exact Hall|].
      cbn. intros x -> ?. congruence. }
    rewrite Hnone, Hc. by destruct fuel.
  - destruct fuel as [|fuel]; [cbn in Hfuel; lia|].
    cbn [Threads.FindThread_loop]. apply N.eqb_neq in Hc. rewrite Hc.
    rewrite (slot_rot _ _ _ Ha). cbn [mbind result_bind list_find].
    destruct (Z.eqb_spec (Thread.tid_ a) tid) as [He|He].
    + rewrite decide_True by done. cbn. unfold probe_index. cbn.
      by rewrite Nat.add_0_r.
    + rewrite decide_False by done. rewrite next_index_rot by done.
      rewrite count_occupied_cons.
      destruct (Z.eqb_spec (Thread.tid_ a) 0) as [Hz|Hz].
      * rewrite decide_True by done. cbn [Nat.add].
        rewrite (IH (S k)) by (cbn in Hfuel; done || lia).
        f_equal. destruct (list_find _ rest) as [[j x]|]; [|done]. cbn.
        unfold probe_index. cbn. do 3 f_equal. lia.
      * rewrite decide_False by done.
        replace (N.of_nat (1 + count_occupied rest) - 1)%N
          with (N.of_nat (count_occupied rest)) by lia.
        rewrite (IH (S k)) by (cbn in Hfuel; done || lia).
        f_equal. destruct (list_find _ rest) as [[j x]|]; [|done]. cbn.
        unfold probe_index. cbn. do 3 f_equal. lia.
Qed.
End probing.

(** ** [FindThread] *)

Lemma max_threads_to_nat st :
  N.to_nat (Threads.max_threads_ st) = length (Threads.threads_ st).
Proof. unfold Threads.max_threads_. apply Nat2N.id. Qed.

Lemma wf_length st : wf st → 0 < length (Threads.threads_ st).
Proof. unfold wf, Threads.max_threads_. lia. Qed.

Lemma GetHashEntry_ok st tid :
  wf st →
  Threads.GetHashEntry st tid = Ok (to_size_t tid mod Threads.max_threads_ st)%N
  ∧ N.to_nat (to_size_t tid mod Threads.max_threads_ st) < length (Threads.threads_ st).
Proof.
  intros Hwf. pose proof (wf_length _ Hwf) as Hlen. unfold Threads.GetHashEntry.
  destruct (N.eqb_spec (Threads.max_threads_ st) 0) as [He|He].
  - unfold Threads.max_threads_ in He. lia.
  - split; [done|].
    pose proof (N.mod_upper_bound (to_size_t tid) _ He) as Hlt.
    unfold Threads.max_threads_ in Hlt at 2. lia.
Qed.

Lemma tid_at_Some st i tid :
  tid_at st i = Some tid ↔
  ∃ th, Threads.threads_ st !! i = Some th ∧ Thread.tid_ th = tid.
Proof.
  unfold tid_at. destruct (Threads.threads_ st !! i) as [th|]; cbn.
  - split; [intros [= <-]; eauto|intros (? & [= <-] & <-); done].
  - split; [done|intros (? & [=] & _)].
Qed.

(** The outcome of a scan of the whole probe sequence, read back on the
    array. *)
Lemma probe_find_Some st h tid j x :
  0 < length (Threads.threads_ st) →
  h < length (Threads.threads_ st) →
  list_find (λ th, Thread.tid_ th = tid) (rotate h (Threads.threads_ st)) = Some (j, x) →
  first_on_probe st (N.of_nat h) tid (probe_index st h 0 (j, x))
  ∧ Threads.threads_ st !! N.to_nat (probe_index st h 0 (j, x)) = Some x.
Proof.
  intros Hlen Hh (Hj & Hx & Hmin)%list_find_Some.
  pose proof Hj as Hjl. apply lookup_lt_Some in Hjl. rewrite length_rotate in Hjl.
  assert (Hrot : ∀ j', j' < length (Threads.threads_ st) →
            rotate h (Threads.threads_ st) !! j'
            = Threads.threads_ st !! ((h + j') `mod` length (Threads.threads_ st))).
  { intros j' Hj'. rewrite lookup_rotate_r by done.
    by rewrite rotate_nat_add_mod. }
  unfold first_on_probe, probe_index. cbn [fst]. rewrite !Nat2N.id, Nat.add_0_l.
  rewrite Hrot in Hj by done. split; [|done].
  exists j. split; [done|]. split; [done|]. split.
  - apply tid_at_Some. eauto.
  - intros j' Hj' (y & Hy & Hty)%tid_at_Some.
    rewrite <- Hrot in Hy by lia. by apply (Hmin j' y).
Qed.

Lemma probe_find_None st h tid :
  list_find (λ th, Thread.tid_ th = tid) (rotate h (Threads.threads_ st)) = None →
  ∀ i, tid_at st i ≠ Some tid.
Proof.
  intros Hnone%list_find_None i (y & Hy & Hty)%tid_at_Some.
  rewrite Forall_forall in Hnone. apply (Hnone y); [|done].
  apply elem_of_rotate, list_elem_of_lookup. eauto.
Qed.

Lemma FindThread_scan st tid fuel :
  wf st → Inv st → tid ≠ 0%Z →
  length (Threads.threads_ st) ≤ fuel →
  Threads.FindThread fuel st tid
  = Ok (probe_index st (N.to_nat (to_size_t tid mod Threads.max_threads_ st)) 0
          <$> list_find (λ th, Thread.tid_ th = tid)
                (rotate (N.to_nat (to_size_t tid mod Threads.max_threads_ st))
                        (Threads.threads_ st))).
Proof.
  intros Hwf HI Htid Hfuel. pose proof (wf_length _ Hwf) as Hlen.
  destruct (GetHashEntry_ok st tid Hwf) as [Hh Hlt].
  unfold Threads.FindThread. rewrite Hh. cbn [mbind result_bind].
  set (h := N.to_nat (to_size_t tid mod Threads.max_threads_ st)) in *.
  rewrite (inv_count _ HI), <- (count_occupied_rotate st h).
  replace (to_size_t tid mod Threads.max_threads_ st)%N
    with (N.of_nat ((h + 0) `mod` length (Threads.threads_ st))).
  2:{ rewrite Nat.add_0_r, Nat.mod_small by done. apply N2Nat.id. }
  apply FindThread_loop_scan; try done. by rewrite length_rotate.
Qed.

Lemma FindThread_outcome (st : Threads.t) (tid : Z) :
  wf st → Inv st → tid ≠ 0%Z →
  ∃ found : option N,
    (∀ fuel, length (Threads.threads_ st) ≤ fuel →
       Threads.FindThread fuel st tid = Ok found)
    ∧ match found with
      | Some i => first_on_probe st (to_size_t tid mod Threads.max_threads_ st) tid i
      | None => ∀ i, tid_at st i ≠ Some tid
      end.
Proof.
  intros Hwf HI Htid. pose proof (wf_length _ Hwf) as Hlen.
  destruct (GetHashEntry_ok st tid Hwf) as [Hh Hlt].
  set (h := N.to_nat (to_size_t tid mod Threads.max_threads_ st)) in *.
  destruct (list_find (λ th, Thread.tid_ th = tid) (rotate h (Threads.threads_ st)))
    as [[j x]|] eqn:Hfind.
  - destruct (probe_find_Some st h tid j x Hlen Hlt Hfind) as [Hfirst Hx].
    exists (Some (probe_index st h 0 (j, x))). split.
    { intros fuel Hfuel. rewrite FindThread_scan by done. fold h. by rewrite Hfind. }
    unfold h in Hfirst at 1. by rewrite N2Nat.id in Hfirst.
  - exists None. split.
    { intros fuel Hfuel. rewrite FindThread_scan by done. fold h. by rewrite Hfind. }
    by apply (probe_find_None st h tid).
Qed.

(** C1 (amended to non-zero identifiers): in a registry that satisfies the
    free-slot invariant, [FindThread] with a non-zero identifier returns
    within [max_threads_] rounds of its loop; it returns the first slot
    holding the identifier on the probe sequence that starts at
    [tid % max_threads_] and wraps, whatever zero slots lie before it, and it
    returns no slot exactly when no slot holds the identifier. *)
Theorem FindThread_correct (st : Threads.t) (tid : Z) :
  wf st → Inv st → tid ≠ 0%Z →
  ∃ (h : N) (found : option N),
    Threads.GetHashEntry st tid = Ok h
    ∧ (∀ fuel, length (Threads.threads_ st) ≤ fuel →
         Threads.FindThread fuel st tid = Ok found)
    ∧ (is_Some found ↔ ∃ i, tid_at st i = Some tid)
    ∧ match found with
      | Some i => first_on_probe st h tid i
      | None => ∀ i, tid_at st i ≠ Some tid
      end.
Proof.
  intros Hwf HI Htid.
  destruct (GetHashEntry_ok st tid Hwf) as [Hh _].
  destruct (FindThread_outcome st tid Hwf HI Htid) as (found & Hrun & Hfound).
  exists (to_size_t tid mod Threads.max_threads_ st)%N, found.
  split; [exact Hh|]. split; [exact Hrun|]. split; [|exact Hfound].
  destruct found as [i|].
  - split; [intros _|by eauto].
    destruct Hfound as (k & _ & _ & Hk & _). by exists (N.to_nat i).
  - split; [by intros []|]. intros [i Hi]. by destruct (Hfound i).
Qed.

(** ** [FindEmptyEntry] and [CreateThread] *)

Lemma count_occupied_replicate n : count_occupied (replicate n Thread.empty) = 0.
Proof. induction n as [|n IH]; [done|]. cbn [replicate]. by rewrite count_occupied_cons, IH. Qed.

Lemma count_occupied_le l : count_occupied l ≤ length l.
Proof. apply length_filter. Qed.

Lemma count_occupied_full l :
  Forall occupied l → count_occupied l = length l.
Proof.
  induction 1 as [|a l Ha _ IH]; [done|].
  rewrite count_occupied_cons. rewrite decide_False by done. cbn. lia.
Qed.

Lemma count_occupied_lt_zero l :
  count_occupied l < length l → ∃ th, th ∈ l ∧ Thread.tid_ th = 0%Z.
Proof.
  intros Hlt.
  destruct (list_find (λ th, Thread.tid_ th = 0%Z) l) as [[j x]|] eqn:Hf.
  - apply list_find_Some in Hf as (Hj & Hx & _). exists x. split; [|done].
    apply list_elem_of_lookup. eauto.
  - apply list_find_None in Hf. apply count_occupied_full in Hf. lia.
Qed.

Lemma FindEmptyEntry_scan st tid :
  wf st →
  Threads.FindEmptyEntry st tid
  = Ok (probe_index st (N.to_nat (to_size_t tid mod Threads.max_threads_ st)) 0
          <$> list_find (λ th, Thread.tid_ th = 0%Z)
                (rotate (N.to_nat (to_size_t tid mod Threads.max_threads_ st))
                        (Threads.threads_ st))).
Proof.
  intros Hwf. pose proof (wf_length _ Hwf) as Hlen.
  destruct (GetHashEntry_ok st tid Hwf) as [Hh Hlt].
  unfold Threads.FindEmptyEntry. rewrite Hh. cbn [mbind result_bind].
  set (h := N.to_nat (to_size_t tid mod Threads.max_threads_ st)) in *.
  replace (to_size_t tid mod Threads.max_threads_ st)%N
    with (N.of_nat ((h + 0) `mod` length (Threads.threads_ st))).
  2:{ rewrite Nat.add_0_r, Nat.mod_small by done. apply N2Nat.id. }
  rewrite max_threads_to_nat.
  rewrite <- (length_rotate (Threads.threads_ st) h) at 1.
  by apply FindEmptyEntry_loop_scan.
Qed.

Lemma CreateThread_cases st tid :
  wf st →
  Threads.num_threads_ st ≠ Threads.max_threads_ st →
  ((∀ i, tid_at st i ≠ Some 0%Z)
   ∧ Threads.CreateThread st tid = Fail NoEmptyEntries)
  ∨ (∃ i st',
       first_on_probe st (to_size_t tid mod Threads.max_threads_ st) 0 i
       ∧ created st tid i st'
       ∧ Threads.CreateThread st tid = Ok (st', i)).
Proof.
  intros Hwf Hnum. pose proof (wf_length _ Hwf) as Hlen.
  destruct (GetHashEntry_ok st tid Hwf) as [Hh Hlt].
  unfold Threads.CreateThread. apply N.eqb_neq in Hnum. rewrite Hnum.
  rewrite FindEmptyEntry_scan by done.
  set (h := N.to_nat (to_size_t tid mod Threads.max_threads_ st)) in *.
  destruct (list_find (λ th, Thread.tid_ th = 0%Z) (rotate h (Threads.threads_ st)))
    as [[j x]|] eqn:Hfind.
  - right. destruct (probe_find_Some st h 0%Z j x Hlen Hlt Hfind) as [Hfirst Hx].
    unfold h in Hfirst at 1. rewrite N2Nat.id in Hfirst.
    apply list_find_Some in Hfind as (_ & Htx & _).
    eexists _, _. split; [exact Hfirst|]. cbn [fmap option_fmap option_map mbind result_bind].
    unfold Threads.slot. rewrite Hx. cbn [mbind result_bind]. split; [|done].
    exists x. eexists. done.
  - left. split; [by eapply probe_find_None|done].
Qed.

Lemma count_occupied_app l1 l2 :
  count_occupied (l1 ++ l2) = count_occupied l1 + count_occupied l2.
Proof. unfold count_occupied. by rewrite filter_app, length_app. Qed.

Lemma count_occupied_insert l i th x :
  l !! i = Some th →
  count_occupied (<[i:=x]> l) + (if decide (Thread.tid_ th = 0%Z) then 0 else 1)
  = count_occupied l + (if decide (Thread.tid_ x = 0%Z) then 0 else 1).
Proof.
  intros Hi. pose proof (lookup_lt_Some _ _ _ Hi) as Hlt.
  rewrite insert_take_drop by done.
  rewrite <- (take_drop_middle l i th Hi) at 3.
  rewrite !count_occupied_app, !count_occupied_cons. lia.
Qed.

Lemma created_length st tid i st' :
  created st tid i st' →
  length (Threads.threads_ st') = length (Threads.threads_ st).
Proof. intros (th & th' & _ & _ & _ & ->). cbn. apply length_insert. Qed.

Lemma created_wf st tid i st' : created st tid i st' → wf st → wf st'.
Proof.
  intros Hc. unfold wf, Threads.max_threads_.
  by rewrite (created_length _ _ _ _ Hc).
Qed.


Lemma created_tid_at st tid i st' j :
  created st tid i st' →
  tid_at st' j = if decide (j = N.to_nat i) then Some tid else tid_at st j.
Proof.
  intros (th & th' & Hi & _ & -> & ->). unfold tid_at. cbn.
  pose proof (lookup_lt_Some _ _ _ Hi) as Hlt.
  destruct (decide (j = N.to_nat i)) as [->|Hne].
  - by rewrite list_lookup_insert_eq.
  - by rewrite list_lookup_insert_ne.
Qed.

Lemma created_count st tid i st' :
  created st tid i st' →
  count_occupied (Threads.threads_ st')
  = count_occupied (Threads.threads_ st) + (if decide (tid = 0%Z) then 0 else 1).
Proof.
  intros (th & th' & Hi & Hz & -> & ->).
  cbn [Threads.threads_ Threads.set_num_threads Threads.set_slot Threads.set_threads].
  pose proof (count_occupied_insert (Threads.threads_ st) (N.to_nat i) th
    (Thread.pthread_create (Thread.set_total_time_nsecs (Thread.set_tid th tid) 0)) Hi) as H.
  cbn [Thread.tid_ Thread.pthread_create Thread.set_thread_id
       Thread.set_total_time_nsecs Thread.set_tid] in H.
  rewrite (decide_True (P := Thread.tid_ th = 0%Z)) in H by done. lia.
Qed.

Lemma created_num st tid i st' :
  created st tid i st' →
  Threads.num_threads_ st' = wrap64 (Threads.num_threads_ st + 1).
Proof. by intros (th & th' & _ & _ & _ & ->). Qed.

Lemma CreateThread_succeeds st tid :
  wf st →
  (N.of_nat (count_occupied (Threads.threads_ st)) ≤ Threads.num_threads_ st)%N →
  (Threads.num_threads_ st < Threads.max_threads_ st)%N →
  ∃ i st',
    Threads.CreateThread st tid = Ok (st', i)
    ∧ first_on_probe st (to_size_t tid mod Threads.max_threads_ st) 0 i
    ∧ created st tid i st'
    ∧ Threads.num_threads_ st' = (Threads.num_threads_ st + 1)%N.
Proof.
  intros Hwf Hcount Hnum.
  assert (Hne : Threads.num_threads_ st ≠ Threads.max_threads_ st) by lia.
  destruct (CreateThread_cases st tid Hwf Hne) as [[Hnone _]|(i & st' & H1 & H2 & H3)].
  - exfalso. destruct (count_occupied_lt_zero (Threads.threads_ st)) as (th & Hin & Hz).
    { unfold Threads.max_threads_ in Hnum. lia. }
    apply list_elem_of_lookup in Hin as [j Hj].
    apply (Hnone j), tid_at_Some. eauto.
  - exists i, st'. split; [done|]. split; [done|]. split; [done|].
    rewrite (created_num _ _ _ _ H2). apply wrap64_small.
    unfold wf in Hwf. lia.
Qed.

Lemma CreateThread_Inv st tid i st' :
  wf st → Inv st → tid ≠ 0%Z →
  Threads.CreateThread st tid = Ok (st', i) →
  created st tid i st' ∧ wf st' ∧ Inv st'.
Proof.
  intros Hwf HI Htid Hcr.
  assert (Hnum : Threads.num_threads_ st ≠ Threads.max_threads_ st).
  { intros He. unfold Threads.CreateThread in Hcr.
    apply N.eqb_eq in He. by rewrite He in Hcr. }
  pose proof (count_occupied_le (Threads.threads_ st)) as Hle.
  destruct (CreateThread_succeeds st tid Hwf) as (i' & st'' & H1 & _ & H3 & H4).
  { rewrite (inv_count _ HI). lia. }
  { rewrite (inv_count _ HI) in Hnum |- *. unfold Threads.max_threads_ in *. lia. }
  rewrite H1 in Hcr. injection Hcr as -> ->.
  split; [done|]. split; [by eapply created_wf|]. split.
  - rewrite H4, (created_count _ _ _ _ H3), (inv_count _ HI).
    rewrite decide_False by done. lia.
  - destruct H3 as (th & th' & Hi & Hz & -> & ->). cbn.
    apply Forall_insert; [apply (inv_free _ HI)|].
    cbn. unfold free. cbn. split; [done|discriminate].
Qed.




Lemma FindEmptyEntry_loop_not_fatal st r idx f :
  Threads.FindEmptyEntry_loop st r idx = Fail f → f = OutOfBounds.
Proof.
  revert idx. induction r as [|r IH]; intros idx; cbn; [done|].
  unfold Threads.slot. destruct (Threads.threads_ st !! N.to_nat idx); cbn.
  - destruct (Thread.tid_ t =? 0)%Z; [done|]. apply IH.
  - by intros [= <-].
Qed.

Lemma CreateThread_too_many st tid :
  Threads.CreateThread st tid = Fail TooManyThreads
  ↔ Threads.num_threads_ st = Threads.max_threads_ st.
Proof.
  unfold Threads.CreateThread.
  destruct (N.eqb_spec (Threads.num_threads_ st) (Threads.max_threads_ st)) as [He|He];
    [done|].
  split; [|done]. intros H. exfalso.
  unfold Threads.FindEmptyEntry, Threads.GetHashEntry in H.
  destruct (Threads.max_threads_ st =? 0)%N; [done|]. cbn in H.
  destruct (Threads.FindEmptyEntry_loop _ _ _) as [[i|]|f] eqn:Hl; cbn in H; try done.
  - unfold Threads.slot in H. destruct (Threads.threads_ st !! N.to_nat i); done.
  - apply FindEmptyEntry_loop_not_fatal in Hl. congruence.
Qed.







(** ** The worker loop and the join *)

Lemma ThreadRunner_idle fuel th :
  Thread.pending_ th = false →
  Thread.ThreadRunner (S fuel) th = Some (th, Thread.Running).
Proof. intros H. cbn. by rewrite H. Qed.

Lemma ThreadRunner_pending fuel th :
  Thread.pending_ th = true →
  Thread.ThreadRunner (S (S fuel)) th
  = Some (Thread.ClearPending (Thread.AddTimeNsecs th (AllocExecute (Thread.entry_ th))),
          if bool_decide (type (Thread.entry_ th) = THREAD_DONE)
          then Thread.Returned else Thread.Running).
Proof.
  intros H. cbn [Thread.ThreadRunner]. unfold Thread.GetAllocEntry.
  rewrite H. cbn [negb].
  destruct (bool_decide (type (Thread.entry_ th) = THREAD_DONE)); done.
Qed.

Lemma schedule_done th :
  live th →
  Thread.schedule (Thread.SetPending (Thread.SetAllocEntry th thread_done_entry))
  = Thread.set_thread_id
      (Thread.ClearPending
         (Thread.AddTimeNsecs
            (Thread.SetPending (Thread.SetAllocEntry th thread_done_entry)) 0))
      (Some Thread.Returned).
Proof. intros Hl. unfold Thread.schedule. cbn. rewrite Hl. done. Qed.

Lemma wrap64_idemp n : wrap64 (wrap64 n) = wrap64 n.
Proof. unfold wrap64. apply N.Div0.mod_mod. Qed.

Lemma pthread_join_done th :
  Thread.thread_id_ th ≠ None →
  ∃ th1,
    Thread.pthread_join (Thread.SetPending (Thread.SetAllocEntry th thread_done_entry))
    = Ok th1
    ∧ Thread.tid_ th1 = Thread.tid_ th
    ∧ Thread.thread_id_ th1 = None
    ∧ wrap64 (Thread.total_time_nsecs_ th1) = wrap64 (Thread.total_time_nsecs_ th)
    ∧ (live th → Thread.pending_ th1 = false).
Proof.
  intros Hid. unfold Thread.pthread_join. cbn [Thread.thread_id_ Thread.SetPending
    Thread.SetAllocEntry Thread.set_pending].
  destruct (Thread.thread_id_ th) as [[]|] eqn:Hth; [| |done].
  - rewrite (schedule_done th Hth). cbn. eexists. split; [reflexivity|]. cbn.
    rewrite N.add_0_r, wrap64_idemp. done.
  - unfold Thread.schedule. cbn. rewrite !Hth. cbn. rewrite Hth.
    eexists. split; [reflexivity|]. cbn.
    do 3 (split; [done|]). unfold live. congruence.
Qed.

Lemma pthread_join_Ok th th1 :
  Thread.pthread_join th = Ok th1 →
  Thread.thread_id_ th ≠ None
  ∧ Thread.thread_id_ th1 = None
  ∧ Thread.tid_ th1 = Thread.tid_ th.
Proof.
  unfold Thread.pthread_join, Thread.schedule.
  destruct (Thread.thread_id_ th) as [[]|] eqn:Hth; [| |done].
  - destruct (Thread.ThreadRunner 2 th) as [[th' s]|] eqn:Hrun; cbn.
    + destruct s; [done|]. intros [= <-]. cbn. split; [done|]. split; [done|].
      cbn in Hrun. destruct (Thread.pending_ th); cbn in Hrun; [|by inversion Hrun].
      destruct (bool_decide _); inversion Hrun; done.
    + by rewrite Hth.
  - rewrite Hth. by intros [= <-].
Qed.

(** ** [Finish] *)

Lemma Finish_Ok st i st' :
  Threads.Finish st i = Ok st' →
  ∃ th th1,
    Threads.threads_ st !! N.to_nat i = Some th
    ∧ Thread.pthread_join th = Ok th1
    ∧ st' = Threads.set_num_threads
              (Threads.set_slot
                 (Threads.set_total_time_nsecs st
                    (wrap64 (Threads.total_time_nsecs_ st + Thread.total_time_nsecs_ th1)))
                 i (Thread.set_tid th1 0))
              (wrap64 (Threads.num_threads_ st + (2 ^ 64 - 1))).
Proof.
  unfold Threads.Finish, Threads.slot.
  destruct (Threads.threads_ st !! N.to_nat i) as [th|]; [|done]. cbn.
  destruct (Thread.pthread_join th) as [th1|] eqn:Hj; [|done]. cbn.
  intros [= <-]. eauto.
Qed.

Lemma Finish_Inv st i st' :
  wf st → Inv st → Threads.Finish st i = Ok st' → wf st' ∧ Inv st'.
Proof.
  intros Hwf HI (th & th1 & Hi & Hj & ->)%Finish_Ok.
  apply pthread_join_Ok in Hj as (Hid & Hid1 & Htid).
  pose proof (inv_free _ HI) as Hfree. rewrite Forall_lookup in Hfree.
  assert (Hocc : Thread.tid_ th ≠ 0%Z).
  { intros Hz. by apply (Hfree _ _ Hi) in Hz. }
  pose proof (count_occupied_insert (Threads.threads_ st) (N.to_nat i) th
                (Thread.set_tid th1 0) Hi) as Hcount.
  cbn [Thread.tid_ Thread.set_tid] in Hcount.
  rewrite decide_False, decide_True in Hcount by done.
  pose proof (count_occupied_le (Threads.threads_ st)) as Hle.
  split.
  - unfold wf, Threads.max_threads_ in *. cbn. by rewrite length_insert.
  - split; cbn [Threads.threads_ Threads.num_threads_ Threads.set_num_threads
                  Threads.set_slot Threads.set_threads Threads.set_total_time_nsecs].
    + rewrite wrap64_pred; [rewrite (inv_count _ HI); lia|].
      rewrite (inv_count _ HI). unfold wf, Threads.max_threads_ in Hwf. lia.
    + apply Forall_insert; [apply (inv_free _ HI)|]. done.
Qed.

(** ** [FinishAll] *)

Lemma occupied_time_0 l : count_occupied l = 0 → occupied_time l = 0%N.
Proof.
  induction l as [|a l IH]; [done|]. rewrite count_occupied_cons. cbn.
  unfold occupied. destruct (decide (Thread.tid_ a = 0%Z)) as [Hz|Hz].
  - rewrite decide_False by (intros H; by apply H). auto.
  - lia.
Qed.

Lemma occupied_indices_length i l :
  length (occupied_indices i l) = count_occupied l.
Proof.
  revert i. induction l as [|a l IH]; intros i; [done|].
  rewrite count_occupied_cons. cbn. unfold occupied.
  destruct (decide (Thread.tid_ a = 0%Z)) as [Hz|Hz].
  - rewrite decide_False by (intros H; by apply H). apply IH.
  - rewrite decide_True by done. cbn. by rewrite IH.
Qed.

Lemma wrap64_add_congr a b c : wrap64 a = wrap64 b → wrap64 (c + a) = wrap64 (c + b).
Proof. intros H. by rewrite <- (wrap64_add_r c a), H, wrap64_add_r. Qed.

Lemma FinishAll_loop_spec r : ∀ st (i : nat),
  i + r = length (Threads.threads_ st) →
  Forall (λ th, occupied th → Thread.thread_id_ th ≠ None) (drop i (Threads.threads_ st)) →
  ∃ st' log,
    Threads.FinishAll_loop r st (N.of_nat i) = Ok (st', log)
    ∧ length (Threads.threads_ st') = length (Threads.threads_ st)
    ∧ take i (Threads.threads_ st') = take i (Threads.threads_ st)
    ∧ Forall (λ th, Thread.tid_ th = 0%Z) (drop i (Threads.threads_ st'))
    ∧ Threads.num_threads_ st'
      = Nat.iter (count_occupied (drop i (Threads.threads_ st)))
          (λ n, wrap64 (n + (2 ^ 64 - 1))) (Threads.num_threads_ st)
    ∧ Threads.total_time_nsecs_ st'
      = (if decide (count_occupied (drop i (Threads.threads_ st)) = 0)
         then Threads.total_time_nsecs_ st
         else wrap64 (Threads.total_time_nsecs_ st
                      + occupied_time (drop i (Threads.threads_ st))))
    ∧ log = flat_map (λ j, [EvSetAllocEntry j thread_done_entry; EvSetPending j; EvJoin j])
              (occupied_indices (N.of_nat i) (drop i (Threads.threads_ st))).
Proof.
  induction r as [|r IH]; intros st i Hir Hall.
  { exists st, []. rewrite !drop_ge by lia. done. }
  destruct (lookup_lt_is_Some_2 (Threads.threads_ st) i) as [th Hth]; [lia|].
  rewrite (drop_S _ _ _ Hth) in Hall |- *. apply Forall_cons in Hall as [Hth_id Hall].
  cbn [Threads.FinishAll_loop]. unfold Threads.slot at 1. rewrite Nat2N.id, Hth.
  cbn [mbind result_bind].
  replace (N.of_nat i + 1)%N with (N.of_nat (S i)) by lia.
  rewrite count_occupied_cons. cbn [occupied_time occupied_indices]. unfold occupied at 2 3.
  destruct (Z.eqb_spec (Thread.tid_ th) 0) as [Hz|Hz].
  - rewrite decide_True by done.
    rewrite !(decide_False (P := Thread.tid_ th ≠ 0%Z)) by (intros H; by apply H).
    destruct (IH st (S i)) as (st' & log & Hrun & Hlen & Htake & Hzero & Hnum & Htot & Hlog);
      [lia|done|].
    exists st', log. split; [done|]. split; [done|].
    assert (Hth' : Threads.threads_ st' !! i = Some th).
    { rewrite <- (lookup_take_lt _ (S i)) by lia. rewrite Htake.
      rewrite lookup_take_lt by lia. done. }
    split. { apply (f_equal (take i)) in Htake. rewrite !take_take in Htake.
             by rewrite !Nat.min_l in Htake by lia. }
    split. { rewrite (drop_S _ _ _ Hth'). by constructor. }
    replace (N.of_nat i + 1)%N with (N.of_nat (S i)) by lia. done.
  - rewrite decide_False by done. rewrite !(decide_True (P := Thread.tid_ th ≠ 0%Z)) by done.
    destruct (pthread_join_done th (Hth_id Hz)) as (th1 & Hjoin & Htid1 & Hid1 & Htime1 & _).
    pose proof (lookup_lt_Some _ _ _ Hth) as Hilt.
    unfold Threads.Finish. unfold Threads.slot.
    cbn [Threads.threads_ Threads.set_slot Threads.set_threads].
    rewrite Nat2N.id, list_lookup_insert_eq by done. cbn [mbind result_bind].
    rewrite Hjoin. cbn [mbind result_bind].
    match goal with |- context [Threads.FinishAll_loop r ?s _] => set (st1 := s) end.
    assert (Hl1 : Threads.threads_ st1
                  = <[i := Thread.set_tid th1 0]> (Threads.threads_ st)).
    { unfold st1. cbn. by rewrite Nat2N.id, list_insert_insert_eq. }
    destruct (IH st1 (S i)) as (st' & log & Hrun & Hlen & Htake & Hzero & Hnum & Htot & Hlog).
    { rewrite Hl1, length_insert. lia. }
    { rewrite Hl1, drop_insert_lt by lia. done. }
    rewrite Hl1 in Hlen, Htake, Hnum, Htot, Hlog.
    rewrite length_insert in Hlen. rewrite drop_insert_lt in Hnum, Htot, Hlog by lia.
    rewrite Hrun. cbn [mbind result_bind]. eexists _, _. split; [reflexivity|].
    split; [done|].
    assert (Hth' : Threads.threads_ st' !! i = Some (Thread.set_tid th1 0)).
    { rewrite <- (lookup_take_lt _ (S i)) by lia. rewrite Htake.
      rewrite lookup_take_lt by lia. by rewrite list_lookup_insert_eq. }
    split. { apply (f_equal (take i)) in Htake. rewrite !take_take in Htake.
             rewrite !Nat.min_l in Htake by lia. by rewrite take_insert_ge in Htake. }
    split. { rewrite (drop_S _ _ _ Hth'). by constructor. }
    split. { rewrite Hnum. cbn [Nat.add]. by rewrite Nat.iter_succ_r. }
    split.
    + rewrite Htot. unfold st1. cbn [Threads.total_time_nsecs_ Threads.set_num_threads
        Threads.set_slot Threads.set_threads Threads.set_total_time_nsecs].
      rewrite (decide_False (P := 1 + _ = 0)) by lia.
      destruct (decide _) as [Hc|Hc].
      * rewrite (occupied_time_0 _ Hc), N.add_0_r. by apply wrap64_add_congr.
      * rewrite wrap64_add_l.
        set (T := Threads.total_time_nsecs_ st).
        set (S' := occupied_time (drop (S i) (Threads.threads_ st))).
        replace (T + Thread.total_time_nsecs_ th1 + S')%N
          with (T + S' + Thread.total_time_nsecs_ th1)%N by lia.
        replace (T + (Thread.total_time_nsecs_ th + S'))%N
          with (T + S' + Thread.total_time_nsecs_ th)%N by lia.
        by apply wrap64_add_congr.
    + rewrite Hlog. cbn [flat_map app].
      replace (N.of_nat i + 1)%N with (N.of_nat (S i)) by lia. done.
Qed.


Lemma Inv_joinable st :
  Inv st →
  Forall (λ th, occupied th → Thread.thread_id_ th ≠ None) (Threads.threads_ st).
Proof.
  intros HI. eapply Forall_impl; [apply (inv_free _ HI)|].
  cbn. intros th Hth Hocc Hid. by apply Hocc, Hth.
Qed.




Lemma Threads_Inv host p s m st :
  Threads.Threads host p s m = Ok st →
  Inv st ∧ Forall (λ th, Thread.tid_ th = 0%Z) (Threads.threads_ st)
  ∧ Threads.num_threads_ st = 0%N.
Proof.
  intros (_ & _ & _ & ->)%Threads_Ok.
  split; [split|]; cbn [Threads.threads_ Threads.num_threads_].
  - by rewrite count_occupied_replicate.
  - by apply Forall_replicate.
  - split; [|done]. by apply Forall_replicate.
Qed.

(** C9: the invariant ([num_threads_] counts the occupied slots, and a slot
    is free exactly when its identifier is zero) holds for the constructed
    registry, whose slots are all zero and whose count is zero, and every
    completed [CreateThread] with a non-zero identifier and every completed
    [Finish] of a slot preserves it. *)
Theorem Inv_preserved :
  (∀ host p s m st, Threads.Threads host p s m = Ok st →
     Inv st ∧ Forall (λ th, Thread.tid_ th = 0%Z) (Threads.threads_ st)
     ∧ Threads.num_threads_ st = 0%N)
  ∧ (∀ st tid st' i, wf st → Inv st → tid ≠ 0%Z →
       Threads.CreateThread st tid = Ok (st', i) → wf st' ∧ Inv st')
  ∧ (∀ st i st', wf st → Inv st →
       Threads.Finish st i = Ok st' → wf st' ∧ Inv st').
Proof.
  split; [exact Threads_Inv|]. split.
  - intros st tid st' i Hwf HI Htid Hcr.
    by destruct (CreateThread_Inv st tid i st' Hwf HI Htid Hcr) as (_ & ? & ?).
  - exact Finish_Inv.
Qed.

(** ** [WaitForAllToQuiesce] *)

Lemma WaitForReady_live th :
  live th →
  ∃ th', Thread.WaitForReady th = Ok th'
         ∧ Thread.tid_ th' = Thread.tid_ th
         ∧ Thread.pending_ th' = false
         ∧ Thread.thread_id_ th' ≠ None
         ∧ (type (Thread.entry_ th) ≠ THREAD_DONE → live th')
         ∧ Thread.total_time_nsecs_ th'
           = (if Thread.pending_ th
              then wrap64 (Thread.total_time_nsecs_ th + AllocExecute (Thread.entry_ th))
              else Thread.total_time_nsecs_ th).
Proof.
  intros Hl. unfold Thread.WaitForReady, Thread.schedule. rewrite Hl.
  destruct (Thread.pending_ th) eqn:Hp.
  - rewrite ThreadRunner_pending by done. cbn. eexists. split; [reflexivity|]. cbn.
    do 3 (split; [done|]). split; [|done].
    intros Hd. by rewrite bool_decide_eq_false_2.
  - rewrite ThreadRunner_idle by done. cbn. rewrite Hp. eexists. split; [reflexivity|].
    cbn. by rewrite Hp.
Qed.

Lemma occupied_indices_nil i l : count_occupied l = 0 → occupied_indices i l = [].
Proof.
  revert i. induction l as [|a l IH]; intros i; [done|].
  rewrite count_occupied_cons. cbn. unfold occupied.
  destruct (decide (Thread.tid_ a = 0%Z)) as [Hz|Hz]; [|lia].
  rewrite decide_False by (intros H; by apply H). apply IH.
Qed.

Lemma WaitForAllToQuiesce_loop_spec r : ∀ st (i : nat) (threads : N),
  i + r = length (Threads.threads_ st) →
  Forall (λ th, occupied th → live th) (drop i (Threads.threads_ st)) →
  (threads + N.of_nat (count_occupied (drop i (Threads.threads_ st))))%N
  = Threads.num_threads_ st →
  ∃ st' log,
    Threads.WaitForAllToQuiesce_loop r st (N.of_nat i) threads = Ok (st', log)
    ∧ log = EvWaitForReady <$> occupied_indices (N.of_nat i) (drop i (Threads.threads_ st))
    ∧ length (Threads.threads_ st') = length (Threads.threads_ st)
    ∧ take i (Threads.threads_ st') = take i (Threads.threads_ st)
    ∧ Forall2 (λ th th', Thread.tid_ th' = Thread.tid_ th
                         ∧ (occupied th → Thread.pending_ th' = false))
        (drop i (Threads.threads_ st)) (drop i (Threads.threads_ st'))
    ∧ Threads.num_threads_ st' = Threads.num_threads_ st.
Proof.
  induction r as [|r IH]; intros st i threads Hir Hall Hcount.
  { exists st, []. rewrite !drop_ge in * by lia. cbn in Hcount.
    cbn [Threads.WaitForAllToQuiesce_loop].
    assert (Hlt : (threads <? Threads.num_threads_ st)%N = false) by (apply N.ltb_ge; lia).
    rewrite Hlt. repeat split; constructor. }
  destruct (lookup_lt_is_Some_2 (Threads.threads_ st) i) as [th Hth]; [lia|].
  pose proof (lookup_lt_Some _ _ _ Hth) as Hilt.
  cbn [Threads.WaitForAllToQuiesce_loop].
  destruct (N.ltb_spec threads (Threads.num_threads_ st)) as [Hlt|Hge].
  2:{ exists st, []. rewrite occupied_indices_nil by lia.
      split; [done|]. split; [done|]. split; [done|]. split; [done|]. split; [|done].
      apply Forall2_same_length_lookup. split; [done|].
      intros j x y Hx Hy. assert (x = y) as -> by congruence. split; [done|].
      intros Hocc. exfalso.
      assert (Hz : Forall (λ th, Thread.tid_ th = 0%Z) (drop i (Threads.threads_ st)))
        by (apply count_occupied_0; lia).
      rewrite Forall_lookup in Hz. by apply Hocc, (Hz j). }
  rewrite (drop_S _ _ _ Hth) in Hall, Hcount |- *. apply Forall_cons in Hall as [Hlive Hall].
  unfold Threads.slot at 1. rewrite Nat2N.id, Hth. cbn [mbind result_bind].
  replace (N.of_nat i + 1)%N with (N.of_nat (S i)) by lia.
  rewrite count_occupied_cons in Hcount. cbn [occupied_indices]. unfold occupied at 2.
  destruct (Z.eqb_spec (Thread.tid_ th) 0) as [Hz|Hz].
  - rewrite decide_True in Hcount by done.
    rewrite (decide_False (P := Thread.tid_ th ≠ 0%Z)) by (intros H; by apply H).
    destruct (IH st (S i) threads) as (st' & log & Hrun & Hlog & Hlen & Htake & Hrel & Hnum);
      [lia|done|done|].
    exists st', log. split; [done|].
    replace (N.of_nat i + 1)%N with (N.of_nat (S i)) by lia. split; [done|]. split; [done|].
    assert (Hth' : Threads.threads_ st' !! i = Some th).
    { rewrite <- (lookup_take_lt _ (S i)) by lia. rewrite Htake.
      rewrite lookup_take_lt by lia. done. }
    split. { apply (f_equal (take i)) in Htake. rewrite !take_take in Htake.
             by rewrite !Nat.min_l in Htake by lia. }
    split; [|done]. rewrite (drop_S _ _ _ Hth'). constructor; [|done].
    split; [done|]. intros Hocc. by destruct Hocc.
  - rewrite decide_False in Hcount by done.
    rewrite (decide_True (P := Thread.tid_ th ≠ 0%Z)) by done.
    destruct (WaitForReady_live th (Hlive Hz)) as (th' & Hwait & Htid' & Hp' & _).
    rewrite Hwait. cbn [mbind result_bind].
    set (st1 := Threads.set_slot st (N.of_nat i) th').
    assert (Hl1 : Threads.threads_ st1 = <[i := th']> (Threads.threads_ st)).
    { unfold st1. cbn. by rewrite Nat2N.id. }
    destruct (IH st1 (S i) (threads + 1)%N)
      as (st' & log & Hrun & Hlog & Hlen & Htake & Hrel & Hnum).
    { rewrite Hl1, length_insert. lia. }
    { rewrite Hl1, drop_insert_lt by lia. done. }
    { rewrite Hl1, drop_insert_lt by lia. cbn. lia. }
    rewrite Hl1 in Hlen, Htake, Hrel, Hlog. rewrite length_insert in Hlen.
    rewrite drop_insert_lt in Hrel, Hlog by lia.
    rewrite Hrun. cbn [mbind result_bind]. eexists _, _. split; [reflexivity|].
    replace (N.of_nat i + 1)%N with (N.of_nat (S i)) by lia.
    split; [by rewrite Hlog|]. split; [done|].
    assert (Hth' : Threads.threads_ st' !! i = Some th').
    { rewrite <- (lookup_take_lt _ (S i)) by lia. rewrite Htake.
      rewrite lookup_take_lt by lia. by rewrite list_lookup_insert_eq. }
    split. { apply (f_equal (take i)) in Htake. rewrite !take_take in Htake.
             rewrite !Nat.min_l in Htake by lia. by rewrite take_insert_ge in Htake. }
    split; [|done]. rewrite (drop_S _ _ _ Hth'). constructor; [|done]. done.
Qed.

Lemma occupied_indices_elem l : ∀ i j,
  j ∈ occupied_indices i l
  ↔ ∃ k th, l !! k = Some th ∧ occupied th ∧ j = (i + N.of_nat k)%N.
Proof.
  induction l as [|a l IH]; intros i j; cbn [occupied_indices].
  { split; [by intros ?%elem_of_nil|by intros (k & th & ? & _)]. }
  assert (Htail : j ∈ occupied_indices (i + 1) l
                  ↔ ∃ k th, (a :: l) !! S k = Some th ∧ occupied th
                            ∧ j = (i + N.of_nat (S k))%N).
  { rewrite IH. split; intros (k & th & Hk & Hocc & ->); exists k, th;
      (split; [done|]); (split; [done|]); lia. }
  destruct (decide (occupied a)) as [Ha|Ha].
  - rewrite elem_of_cons, Htail. split.
    + intros [->|(k & th & ?)]; [exists 0, a; split; [done|]; split; [done|]; lia|].
      by exists (S k), th.
    + intros ([|k] & th & Hk & Hocc & ->); [left; lia|right; eauto].
  - rewrite Htail. split.
    + intros (k & th & ?). by exists (S k), th.
    + intros ([|k] & th & Hk & Hocc & ->); [|eauto].
      cbn in Hk. by injection Hk as ->.
Qed.

Lemma occupied_indices_sorted l : ∀ i, StronglySorted N.lt (occupied_indices i l).
Proof.
  induction l as [|a l IH]; intros i; cbn [occupied_indices]; [constructor|].
  destruct (decide (occupied a)); [|apply IH].
  constructor; [apply IH|]. apply Forall_forall. intros j Hj.
  apply occupied_indices_elem in Hj as (k & th & _ & _ & ->). lia.
Qed.

(** C8: in a registry that satisfies the invariant and whose workers are
    all running their loop, [WaitForAllToQuiesce] returns; it calls
    [WaitForReady] on the occupied slots in increasing index order, once on
    each, [num_threads_] calls in all, so every occupied slot is waited on
    and is idle afterwards. *)
Theorem WaitForAllToQuiesce_visits (st : Threads.t) :
  Inv st → all_live st →
  ∃ st' log visited,
    Threads.WaitForAllToQuiesce st = Ok (st', log)
    ∧ log = EvWaitForReady <$> visited
    ∧ visited = occupied_indices 0 (Threads.threads_ st)
    ∧ StronglySorted N.lt visited
    ∧ (∀ j, j ∈ visited ↔ ∃ th, Threads.slot st j = Ok th ∧ occupied th)
    ∧ N.of_nat (length visited) = Threads.num_threads_ st
    ∧ Forall2 (λ th th', Thread.tid_ th' = Thread.tid_ th
                         ∧ (occupied th → Thread.pending_ th' = false))
        (Threads.threads_ st) (Threads.threads_ st').
Proof.
  intros HI Hlive.
  destruct (WaitForAllToQuiesce_loop_spec (length (Threads.threads_ st)) st 0 0)
    as (st' & log & Hrun & Hlog & Hlen & _ & Hrel & _);
    [done|by rewrite drop_0|by rewrite drop_0, (inv_count _ HI)|].
  rewrite !drop_0 in *.
  exists st', log, (occupied_indices 0 (Threads.threads_ st)).
  split; [exact Hrun|]. split; [done|]. split; [done|].
  split; [apply occupied_indices_sorted|]. split; [|split; [|done]].
  - intros j. rewrite occupied_indices_elem. unfold Threads.slot. split.
    + intros (k & th & Hk & Hocc & ->). exists th.
      rewrite N.add_0_l, Nat2N.id, Hk. done.
    + intros (th & Hj & Hocc). exists (N.to_nat j), th.
      destruct (Threads.threads_ st !! N.to_nat j) as [th0|]; [|done].
      injection Hj as ->. split; [done|]. split; [done|]. lia.
  - by rewrite occupied_indices_length, (inv_count _ HI).
Qed.

(** ** [FindThread] with the reserved identifier *)

Lemma FindThread_loop_zero st :
  0 < length (Threads.threads_ st) → ∀ rest k (e : nat) fuel,
  drop k (rotate 0 (Threads.threads_ st)) = rest →
  e ≤ length rest →
  length rest ≤ fuel →
  Threads.FindThread_loop fuel st 0 (N.of_nat ((0 + k) `mod` length (Threads.threads_ st)))
    (N.of_nat e)
  = Ok (match list_find (λ th, Thread.tid_ th = 0%Z) rest with
        | Some p => if decide (p.1 < e) then Some (probe_index st 0 k p) else None
        | None => None
        end).
Proof.
  intros Hlen rest. induction rest as [|a rest IH]; intros k e fuel Hd He Hfuel.
  { cbn in He. assert (e = 0) as -> by lia. by destruct fuel. }
  apply drop_cons_inv in Hd as [Ha Hd].
  destruct e as [|e].
  { replace (Threads.FindThread_loop fuel st 0 _ (N.of_nat 0)) with (@Ok (option N) None)
      by (by destruct fuel).
    destruct (list_find _ (a :: rest)) as [[j x]|]; [|done].
    by rewrite decide_False by (cbn; lia). }
  destruct fuel as [|fuel]; [cbn in Hfuel; lia|].
  cbn [Threads.FindThread_loop].
  replace (N.of_nat (S e) =? 0)%N with false by (symmetry; apply N.eqb_neq; lia).
  rewrite (slot_rot _ _ _ _ Ha). cbn [mbind result_bind list_find].
  destruct (Z.eqb_spec (Thread.tid_ a) 0) as [Hz|Hz].
  - rewrite decide_True by done. rewrite decide_True by (cbn; lia).
    unfold probe_index. cbn. by rewrite Nat.add_0_r.
  - rewrite (decide_False (P := Thread.tid_ a = 0%Z)) by done.
    rewrite next_index_rot by done.
    replace (N.of_nat (S e) - 1)%N with (N.of_nat e) by lia.
    rewrite (IH (S k) e) by (cbn in He, Hfuel; done || lia).
    f_equal. destruct (list_find _ rest) as [[j x]|]; [|done]. cbn.
    destruct (decide (j < e)).
    + rewrite decide_True by lia. unfold probe_index. cbn. do 3 f_equal. lia.
    + by rewrite decide_False by lia.
Qed.

Lemma first_on_probe_0 st i :
  0 < length (Threads.threads_ st) →
  first_on_probe st 0 0 i
  ↔ ∃ x, list_find (λ th, Thread.tid_ th = 0%Z) (Threads.threads_ st)
         = Some (N.to_nat i, x).
Proof.
  intros Hlen. unfold first_on_probe. cbn [N.to_nat]. split.
  - intros (k & Hk & Hi & (x & Hx & Htx)%tid_at_Some & Hmin).
    rewrite Nat.add_0_l, Nat.mod_small in Hi by done. subst k.
    exists x. apply list_find_Some. split; [done|]. split; [done|].
    intros j y Hj Hlt Hy. apply (Hmin j Hlt).
    rewrite Nat.add_0_l, Nat.mod_small by lia. apply tid_at_Some. eauto.
  - intros (x & (Hx & Htx & Hmin)%list_find_Some).
    pose proof (lookup_lt_Some _ _ _ Hx) as Hlt.
    exists (N.to_nat i). split; [done|].
    rewrite Nat.add_0_l, Nat.mod_small by done. split; [done|].
    split; [apply tid_at_Some; eauto|].
    intros j Hj. rewrite Nat.add_0_l, Nat.mod_small by lia.
    intros (y & Hy & Hty)%tid_at_Some. by apply (Hmin j y).
Qed.

(** C10 (amended): [FindThread] with identifier zero starts at index zero
    and returns; it returns the first zero slot in storage order when fewer
    than [num_threads_] slots precede it, and no slot otherwise, that is,
    when [num_threads_] occupied slots come first or no slot is zero. *)
Theorem FindThread_zero (st : Threads.t) :
  wf st → Inv st →
  Threads.GetHashEntry st 0 = Ok 0%N
  ∧ ∃ found,
      (∀ fuel, length (Threads.threads_ st) ≤ fuel →
         Threads.FindThread fuel st 0 = Ok found)
      ∧ (∀ i, first_on_probe st 0 0 i →
           found = if decide (i < Threads.num_threads_ st)%N then Some i else None)
      ∧ ((∀ i, tid_at st i ≠ Some 0%Z) → found = None).
Proof.
  intros Hwf HI. pose proof (wf_length _ Hwf) as Hlen.
  destruct (GetHashEntry_ok st 0 Hwf) as [Hh _].
  assert (H0 : (to_size_t 0 mod Threads.max_threads_ st)%N = 0%N) by done.
  rewrite H0 in Hh. split; [done|].
  pose proof (count_occupied_le (Threads.threads_ st)) as Hle.
  eexists. split.
  { intros fuel Hfuel. unfold Threads.FindThread. rewrite Hh. cbn [mbind result_bind].
    rewrite (inv_count _ HI).
    pose proof (FindThread_loop_zero st Hlen (Threads.threads_ st) 0
                  (count_occupied (Threads.threads_ st)) fuel) as H.
    rewrite Nat.add_0_l, Nat.Div0.mod_0_l in H. apply H; [|done..].
    unfold rotate. rewrite Nat.Div0.mod_0_l. cbn. apply app_nil_r. }
  split.
  - intros i (x & Hx)%first_on_probe_0; [|done]. rewrite Hx. cbn [fst].
    unfold probe_index. cbn [fst]. rewrite !Nat.add_0_l.
    apply list_find_Some in Hx as (Hx & _). apply lookup_lt_Some in Hx.
    rewrite Nat.mod_small, N2Nat.id by done. rewrite (inv_count _ HI).
    destruct (decide (N.to_nat i < _)); [rewrite decide_True by lia|rewrite decide_False by lia];
      done.
  - intros Hnone.
    destruct (list_find _ (Threads.threads_ st)) as [[j x]|] eqn:Hf; [|done].
    apply list_find_Some in Hf as (Hj & Hx & _). exfalso.
    apply (Hnone j), tid_at_Some. eauto.
Qed.

(** ** Replaying a script *)

Lemma occupied_time_app l1 l2 :
  occupied_time (l1 ++ l2) = (occupied_time l1 + occupied_time l2)%N.
Proof.
  induction l1 as [|a l1 IH]; [done|]. cbn. destruct (decide (occupied a)); lia.
Qed.

Lemma occupied_time_insert l i th x :
  l !! i = Some th →
  ∃ A : N,
    occupied_time l
    = (A + if decide (occupied th) then Thread.total_time_nsecs_ th else 0)%N
    ∧ occupied_time (<[i:=x]> l)
      = (A + if decide (occupied x) then Thread.total_time_nsecs_ x else 0)%N.
Proof.
  intros Hi. pose proof (lookup_lt_Some _ _ _ Hi) as Hlt.
  exists (occupied_time (take i l) + occupied_time (drop (S i) l))%N.
  rewrite insert_take_drop by done.
  rewrite <- (take_drop_middle l i th Hi) at 1.
  rewrite !occupied_time_app. cbn.
  destruct (decide (occupied th)), (decide (occupied x)); lia.
Qed.







(** ** The example registries *)

Ltac solve_wf := unfold wf; vm_compute; split; reflexivity.

Ltac solve_Inv :=
  split; [vm_compute; reflexivity|]; cbn;
  repeat (apply Forall_cons; split;
            [unfold free; cbn; split; [done || discriminate|done || discriminate]|]);
  by apply Forall_nil.

Lemma fresh_registry_constructed :
  Threads.Threads host47 4096 1024 4 = Ok fresh_registry.
Proof. vm_compute. reflexivity. Qed.

Lemma fresh_registry_wf : wf fresh_registry.
Proof. solve_wf. Qed.

Lemma fresh_registry_Inv : Inv fresh_registry.
Proof. solve_Inv. Qed.

Lemma chain_registry_wf : wf chain_registry.
Proof. solve_wf. Qed.

Lemma chain_registry_Inv : Inv chain_registry.
Proof. solve_Inv. Qed.

Lemma chain_registry_live : all_live chain_registry.
Proof.
  unfold all_live.
  repeat (apply Forall_cons; split; [unfold occupied, live; cbn; done|]).
  by apply Forall_nil.
Qed.




Lemma single_registry_wf : wf single_registry.
Proof. solve_wf. Qed.

Lemma single_registry_Inv : Inv single_registry.
Proof. solve_Inv. Qed.

Lemma replayed_registry_wf : wf replayed_registry.
Proof. solve_wf. Qed.

Lemma replayed_registry_Inv : Inv replayed_registry.
Proof. solve_Inv. Qed.

Lemma signalled_registry_wf : wf signalled_registry.
Proof. solve_wf. Qed.

Lemma signalled_registry_Inv : Inv signalled_registry.
Proof. solve_Inv. Qed.

(** ** The theorems at the example registries *)

(** Tombstone robustness: 13 is found past the zero slot that the
    retirement of 9 left in the middle of the chain. *)
Lemma FindThread_correct_witness :
  ∃ (h : N) (found : option N),
    Threads.GetHashEntry chain_registry 13 = Ok h
    ∧ (∀ fuel, length (Threads.threads_ chain_registry) ≤ fuel →
         Threads.FindThread fuel chain_registry 13 = Ok found)
    ∧ (is_Some found ↔ ∃ i, tid_at chain_registry i = Some 13%Z)
    ∧ match found with
      | Some i => first_on_probe chain_registry h 13 i
      | None => ∀ i, tid_at chain_registry i ≠ Some 13%Z
      end.
Proof.
  apply (FindThread_correct chain_registry 13 chain_registry_wf chain_registry_Inv).
  done.
Defined.

(** The identifier zero: on the fresh registry every slot holds zero and
    [FindThread] returns no slot; on the chain registry no worker has the
    identifier zero and [FindThread] returns slot 0, which is free. *)
Lemma FindThread_identifier_zero_counterexample :
  (wf fresh_registry ∧ Inv fresh_registry
   ∧ tid_at fresh_registry 0 = Some 0%Z
   ∧ ∀ fuel, Threads.FindThread fuel fresh_registry 0 = Ok None)
  ∧ (wf chain_registry ∧ Inv chain_registry
     ∧ Threads.FindThread 4 chain_registry 0 = Ok (Some 0%N)
     ∧ Threads.slot chain_registry 0 = Ok Thread.empty
     ∧ free Thread.empty).
Proof.
  split.
  - split; [exact fresh_registry_wf|]. split; [exact fresh_registry_Inv|].
    split; [reflexivity|]. intros [|fuel]; reflexivity.
  - split; [exact chain_registry_wf|]. split; [exact chain_registry_Inv|].
    split; [vm_compute; reflexivity|]. split; reflexivity.
Qed.








Lemma WaitForAllToQuiesce_visits_witness :
  ∃ st' log visited,
    Threads.WaitForAllToQuiesce chain_registry = Ok (st', log)
    ∧ log = EvWaitForReady <$> visited
    ∧ visited = [1; 3]%N
    ∧ StronglySorted N.lt visited
    ∧ (∀ j, j ∈ visited ↔ ∃ th, Threads.slot chain_registry j = Ok th ∧ occupied th)
    ∧ N.of_nat (length visited) = 2%N
    ∧ Forall2 (λ th th', Thread.tid_ th' = Thread.tid_ th
                         ∧ (occupied th → Thread.pending_ th' = false))
        (Threads.threads_ chain_registry) (Threads.threads_ st').
Proof.
  exact (WaitForAllToQuiesce_visits chain_registry chain_registry_Inv chain_registry_live).
Defined.

Lemma Inv_preserved_witness :
  (∃ st' i, Threads.CreateThread chain_registry 9 = Ok (st', i) ∧ wf st' ∧ Inv st')
  ∧ (∃ st', Threads.Finish signalled_registry 2 = Ok st' ∧ wf st' ∧ Inv st').
Proof.
  split.
  - eexists _, _. split; [vm_compute; reflexivity|].
    apply (proj1 (proj2 Inv_preserved) chain_registry 9%Z _ 2%N
             chain_registry_wf chain_registry_Inv); [done|].
    vm_compute. reflexivity.
  - eexists. split; [vm_compute; reflexivity|].
    apply (proj2 (proj2 Inv_preserved) signalled_registry 2%N _
             signalled_registry_wf signalled_registry_Inv).
    vm_compute. reflexivity.
Defined.

Lemma FindThread_zero_witness :
  Threads.GetHashEntry chain_registry 0 = Ok 0%N
  ∧ ∃ found,
      (∀ fuel, length (Threads.threads_ chain_registry) ≤ fuel →
         Threads.FindThread fuel chain_registry 0 = Ok found)
      ∧ (∀ i, first_on_probe chain_registry 0 0 i →
           found = if decide (i < 2)%N then Some i else None)
      ∧ ((∀ i, tid_at chain_registry i ≠ Some 0%Z) → found = None).
Proof.
  exact (FindThread_zero chain_registry chain_registry_wf chain_registry_Inv).
Defined.

(** One worker in slot 0: [num_threads_] is positive and slot 1 is the
    first zero slot on the probe sequence from index 0, yet [FindThread]
    with identifier zero returns no slot; the single worker is the result of
    [CreateThread] with identifier 4 on the fresh registry. *)
Lemma FindThread_zero_counterexample :
  Threads.CreateThread fresh_registry 4 = Ok (single_registry, 0%N)
  ∧ wf single_registry ∧ Inv single_registry
  ∧ (0 < Threads.num_threads_ single_registry)%N
  ∧ first_on_probe single_registry 0 0 1
  ∧ ∀ fuel, Threads.FindThread (S fuel) single_registry 0 = Ok None.
Proof.
  split; [vm_compute; reflexivity|]. split; [exact single_registry_wf|].
  split; [exact single_registry_Inv|]. split; [reflexivity|]. split.
  - exists 1. split; [cbn; lia|]. split; [reflexivity|]. split; [reflexivity|].
    intros j Hj. assert (j = 0) as -> by lia. cbn. discriminate.
  - intros [|fuel]; reflexivity.
Qed.

(** * Further properties of the registry *)

(** ** What [FindThread] can return *)

Lemma FindThread_loop_sound st tid : ∀ fuel index entries i,
  Threads.FindThread_loop fuel st tid index entries = Ok (Some i) →
  tid_at st (N.to_nat i) = Some tid.
Proof.
  induction fuel as [|fuel IH]; intros index entries i; cbn [Threads.FindThread_loop];
    destruct (entries =? 0)%N; try done.
  unfold Threads.slot. destruct (Threads.threads_ st !! N.to_nat index) as [th|] eqn:Hth;
    cbn [mbind result_bind]; [|done].
  destruct (Z.eqb_spec (Thread.tid_ th) tid) as [He|He]; [|apply IH].
  intros [= <-]. apply tid_at_Some. eauto.
Qed.

(** X1: whatever the state of the registry, the identifier and the fuel, a
    slot that [FindThread] returns is a slot of the array that holds the
    identifier asked for. *)
Theorem FindThread_sound (fuel : nat) (st : Threads.t) (tid : Z) (i : N) :
  Threads.FindThread fuel st tid = Ok (Some i) →
  (i < Threads.max_threads_ st)%N ∧ tid_at st (N.to_nat i) = Some tid.
Proof.
  unfold Threads.FindThread.
  destruct (Threads.GetHashEntry st tid) as [h|] eqn:Hh; cbn [mbind result_bind]; [|done].
  intros Hi%FindThread_loop_sound. split; [|done].
  apply tid_at_Some in Hi as (th & Hth & _). apply lookup_lt_Some in Hth.
  unfold Threads.max_threads_. lia.
Qed.

Lemma next_index_lt st index :
  (index < Threads.max_threads_ st)%N →
  (Threads.next_index st index < Threads.max_threads_ st)%N.
Proof.
  intros Hlt. unfold Threads.next_index.
  destruct (N.eqb_spec (index + 1) (Threads.max_threads_ st)); lia.
Qed.

Lemma FindThread_loop_all_zero st tid :
  tid ≠ 0%Z →
  Forall (λ th, Thread.tid_ th = 0%Z) (Threads.threads_ st) →
  ∀ fuel index entries,
    (index < Threads.max_threads_ st)%N →
    entries ≠ 0%N →
    Threads.FindThread_loop fuel st tid index entries = Fail OutOfFuel.
Proof.
  intros Htid Hzero. induction fuel as [|fuel IH]; intros index entries Hlt He;
    cbn [Threads.FindThread_loop]; apply N.eqb_neq in He as He'; rewrite He'; [done|].
  destruct (lookup_lt_is_Some_2 (Threads.threads_ st) (N.to_nat index)) as [th Hth].
  { unfold Threads.max_threads_ in Hlt. lia. }
  unfold Threads.slot. rewrite Hth. cbn [mbind result_bind].
  rewrite Forall_lookup in Hzero. rewrite (Hzero _ _ Hth).
  destruct (Z.eqb_spec 0 tid) as [Hz|Hz]; [congruence|]. cbn.
  apply IH; [by apply next_index_lt|done].
Qed.

(** X2: when every slot has a zero identifier but [num_threads_] is not
    zero, the loop of [FindThread] never decrements its counter: for a
    non-zero identifier the search does not return, whatever the fuel. *)
Theorem FindThread_diverges (st : Threads.t) (tid : Z) :
  wf st →
  tid ≠ 0%Z →
  Forall (λ th, Thread.tid_ th = 0%Z) (Threads.threads_ st) →
  Threads.num_threads_ st ≠ 0%N →
  ∀ fuel, Threads.FindThread fuel st tid = Fail OutOfFuel.
Proof.
  intros Hwf Htid Hzero Hnum fuel.
  destruct (GetHashEntry_ok st tid Hwf) as [Hh Hlt].
  unfold Threads.FindThread. rewrite Hh. cbn [mbind result_bind].
  apply FindThread_loop_all_zero; try done.
  unfold Threads.max_threads_ in *. lia.
Qed.

(** ** [CreateThread] at its edges *)


Lemma CreateThread_Ok_created st tid st' i :
  wf st → Threads.CreateThread st tid = Ok (st', i) → created st tid i st'.
Proof.
  intros Hwf Hcr.
  assert (Hnum : Threads.num_threads_ st ≠ Threads.max_threads_ st).
  { intros He. unfold Threads.CreateThread in Hcr.
    apply N.eqb_eq in He. by rewrite He in Hcr. }
  destruct (CreateThread_cases st tid Hwf Hnum) as [[_ Hf]|(i' & st'' & _ & Hcd & Hok)];
    [congruence|].
  rewrite Hok in Hcr. by injection Hcr as <- <-.
Qed.

(** X4: a successful [CreateThread] takes a slot whose identifier was zero
    and writes nothing else: every other slot, the extent of the array, the
    region size and the total time are as before. *)
Theorem CreateThread_frame (st : Threads.t) (tid : Z) (st' : Threads.t) (i : N) :
  wf st →
  Threads.CreateThread st tid = Ok (st', i) →
  tid_at st (N.to_nat i) = Some 0%Z
  ∧ tid_at st' (N.to_nat i) = Some tid
  ∧ (∀ j, j ≠ N.to_nat i → Threads.threads_ st' !! j = Threads.threads_ st !! j)
  ∧ length (Threads.threads_ st') = length (Threads.threads_ st)
  ∧ Threads.data_size_ st' = Threads.data_size_ st
  ∧ Threads.total_time_nsecs_ st' = Threads.total_time_nsecs_ st.
Proof.
  intros Hwf Hcr. pose proof (CreateThread_Ok_created _ _ _ _ Hwf Hcr) as Hcd.
  split.
  { destruct Hcd as (th & th' & Hi & Hz & _). apply tid_at_Some. eauto. }
  split.
  { rewrite (created_tid_at _ _ _ _ _ Hcd). by rewrite decide_True. }
  split; [|split; [by eapply created_length|]].
  - intros j Hj. destruct Hcd as (th & th' & Hi & Hz & -> & ->). cbn.
    by rewrite list_lookup_insert_ne.
  - by destruct Hcd as (th & th' & Hi & Hz & -> & ->).
Qed.


(** ** Lookups across creations and retirements *)

Lemma list_find_insert_irrelevant {A} (P : A → Prop) `{∀ x, Decision (P x)}
    (l : list A) : ∀ k x y,
  l !! k = Some y → ¬ P y → ¬ P x →
  list_find P (<[k:=x]> l) = list_find P l.
Proof.
  induction l as [|a l IH]; intros k x y Hk Hy Hx; [done|].
  destruct k as [|k]; cbn in Hk.
  - injection Hk as ->. cbn. by rewrite !decide_False.
  - change (<[S k:=x]> (a :: l)) with (a :: <[k:=x]> l). cbn [list_find].
    destruct (decide (P a)); [done|]. by rewrite (IH k x y).
Qed.

Lemma FindThread_insert_other st st' (i : nat) x y tid fuel :
  wf st → Inv st → wf st' → Inv st' →
  Threads.threads_ st' = <[i:=x]> (Threads.threads_ st) →
  Threads.threads_ st !! i = Some y →
  Thread.tid_ x ≠ tid → Thread.tid_ y ≠ tid → tid ≠ 0%Z →
  length (Threads.threads_ st) ≤ fuel →
  Threads.FindThread fuel st' tid = Threads.FindThread fuel st tid.
Proof.
  intros Hwf HI Hwf' HI' Hl Hi Hx Hy Htid Hfuel.
  assert (Hlen : length (Threads.threads_ st') = length (Threads.threads_ st))
    by (by rewrite Hl, length_insert).
  pose proof (lookup_lt_Some _ _ _ Hi) as Hilt.
  rewrite !FindThread_scan by (done || lia).
  unfold Threads.max_threads_, probe_index. rewrite Hlen, Hl.
  rewrite rotate_insert_r by done.
  rewrite (list_find_insert_irrelevant _ _ _ x y); [done| |done..].
  by rewrite lookup_rotate_l.
Qed.

(** X6: a creation does not disturb the other lookups: after a successful
    [CreateThread] with a non-zero identifier, [FindThread] gives for every
    other non-zero identifier the result it gave before. *)
Theorem CreateThread_FindThread_other (st : Threads.t) (tid tid' : Z)
    (st' : Threads.t) (i : N) (fuel : nat) :
  wf st → Inv st →
  tid ≠ 0%Z → tid' ≠ 0%Z → tid' ≠ tid →
  Threads.CreateThread st tid = Ok (st', i) →
  length (Threads.threads_ st) ≤ fuel →
  Threads.FindThread fuel st' tid' = Threads.FindThread fuel st tid'.
Proof.
  intros Hwf HI Htid Htid' Hne Hcr Hfuel.
  destruct (CreateThread_Inv st tid i st' Hwf HI Htid Hcr) as (Hcd & Hwf' & HI').
  destruct Hcd as (th & th' & Hi & Hz & -> & ->).
  apply (FindThread_insert_other st _ (N.to_nat i)
           (Thread.pthread_create (Thread.set_total_time_nsecs (Thread.set_tid th tid) 0))
           th tid' fuel Hwf HI Hwf' HI' eq_refl Hi); [|congruence|done..].
  cbn. congruence.
Qed.

Lemma Finish_Ok_slot st i st' :
  Inv st → Threads.Finish st i = Ok st' →
  ∃ th th1,
    Threads.threads_ st !! N.to_nat i = Some th
    ∧ Thread.tid_ th ≠ 0%Z
    ∧ Threads.threads_ st' = <[N.to_nat i := Thread.set_tid th1 0]> (Threads.threads_ st).
Proof.
  intros HI (th & th1 & Hi & Hj & ->)%Finish_Ok.
  apply pthread_join_Ok in Hj as (Hid & _ & _).
  exists th, th1. split; [done|]. split; [|done].
  pose proof (inv_free _ HI) as Hfree. rewrite Forall_lookup in Hfree.
  intros Hz. by apply (Hfree _ _ Hi) in Hz.
Qed.

(** X7: a retirement leaves no barrier behind: after a completed [Finish]
    of a slot, [FindThread] gives for every non-zero identifier other than
    the one the slot held the result it gave before, wherever the slot lay
    on the probe sequence. *)
Theorem Finish_FindThread_other (st : Threads.t) (i : N) (st' : Threads.t)
    (tid : Z) (fuel : nat) :
  wf st → Inv st →
  Threads.Finish st i = Ok st' →
  tid ≠ 0%Z →
  tid_at st (N.to_nat i) ≠ Some tid →
  length (Threads.threads_ st) ≤ fuel →
  Threads.FindThread fuel st' tid = Threads.FindThread fuel st tid.
Proof.
  intros Hwf HI Hfin Htid Hne Hfuel.
  destruct (Finish_Inv st i st' Hwf HI Hfin) as [Hwf' HI'].
  destruct (Finish_Ok_slot st i st' HI Hfin) as (th & th1 & Hi & Hocc & Hl).
  apply (FindThread_insert_other st st' (N.to_nat i) (Thread.set_tid th1 0) th tid fuel
           Hwf HI Hwf' HI' Hl Hi); [|  |done..].
  - cbn. congruence.
  - intros He. apply Hne, tid_at_Some. eauto.
Qed.

(** X8: after a completed [Finish] of the only slot that held an
    identifier, [FindThread] reports that identifier absent. *)
Theorem Finish_FindThread_retired (st : Threads.t) (i : N) (st' : Threads.t)
    (tid : Z) (fuel : nat) :
  wf st → Inv st →
  Threads.Finish st i = Ok st' →
  tid_at st (N.to_nat i) = Some tid →
  (∀ j, tid_at st j = Some tid → j = N.to_nat i) →
  length (Threads.threads_ st) ≤ fuel →
  Threads.FindThread fuel st' tid = Ok None.
Proof.
  intros Hwf HI Hfin Hi Huniq Hfuel.
  destruct (Finish_Inv st i st' Hwf HI Hfin) as [Hwf' HI'].
  destruct (Finish_Ok_slot st i st' HI Hfin) as (th & th1 & Hth & Hocc & Hl).
  assert (Htid : tid ≠ 0%Z).
  { apply tid_at_Some in Hi as (th0 & Hth0 & Ht0). congruence. }
  assert (Hlen : length (Threads.threads_ st') = length (Threads.threads_ st))
    by (by rewrite Hl, length_insert).
  destruct (FindThread_outcome st' tid Hwf' HI' Htid) as (found & Hrun & Hfound).
  rewrite Hrun by lia. destruct found as [k|]; [exfalso|done].
  destruct Hfound as (_ & _ & _ & (thk & Hk & Htk)%tid_at_Some & _).
  rewrite Hl in Hk. destruct (decide (N.to_nat k = N.to_nat i)) as [He|Hne].
  - rewrite He, list_lookup_insert_eq in Hk by (by eapply lookup_lt_Some).
    injection Hk as <-. cbn in Htk. congruence.
  - rewrite list_lookup_insert_ne in Hk by done.
    apply Hne, Huniq, tid_at_Some. eauto.
Qed.

(** ** The worker loop and [Finish] *)

(** X9: with two rounds of fuel or more the loop of [ThreadRunner] has
    stopped: it has handled at most one item, adding what [AllocExecute]
    reports to the time of the slot, the signal is idle, and it has returned
    exactly when the signal was pending on the [Done] sentinel; otherwise it
    is suspended in [WaitForPending]. *)
Theorem ThreadRunner_one_item (fuel : nat) (th : Thread.t) :
  2 ≤ fuel →
  ∃ th' s,
    Thread.ThreadRunner fuel th = Some (th', s)
    ∧ Thread.pending_ th' = false
    ∧ Thread.tid_ th' = Thread.tid_ th
    ∧ (s = Thread.Returned
       ↔ Thread.pending_ th = true ∧ type (Thread.entry_ th) = THREAD_DONE)
    ∧ Thread.total_time_nsecs_ th'
      = (if Thread.pending_ th
         then wrap64 (Thread.total_time_nsecs_ th + AllocExecute (Thread.entry_ th))
         else Thread.total_time_nsecs_ th).
Proof.
  intros Hfuel. destruct fuel as [|[|fuel]]; [lia..|].
  destruct (Thread.pending_ th) eqn:Hp.
  - rewrite ThreadRunner_pending by done. eexists _, _. split; [reflexivity|]. cbn.
    split; [done|]. split; [done|]. split; [|done].
    destruct (decide (type (Thread.entry_ th) = THREAD_DONE)) as [Hd|Hd].
    + by rewrite bool_decide_eq_true_2.
    + rewrite bool_decide_eq_false_2 by done. split; [done|]. by intros [_ ?].
  - rewrite ThreadRunner_idle by done. eexists _, _. split; [reflexivity|].
    split; [done|]. split; [done|]. split; [|done]. split; [done|]. by intros [? _].
Qed.

Lemma pthread_join_live th :
  live th →
  (∃ th1, Thread.pthread_join th = Ok th1)
  ↔ Thread.pending_ th = true ∧ type (Thread.entry_ th) = THREAD_DONE.
Proof.
  intros Hl. unfold Thread.pthread_join, Thread.schedule. rewrite Hl.
  destruct (Thread.pending_ th) eqn:Hp.
  - rewrite ThreadRunner_pending by done. cbn.
    destruct (decide (type (Thread.entry_ th) = THREAD_DONE)) as [Hd|Hd].
    + rewrite bool_decide_eq_true_2 by done. split; [done|eauto].
    + rewrite bool_decide_eq_false_2 by done. split; [by intros [? ?]|by intros [_ ?]].
  - rewrite ThreadRunner_idle by done. cbn.
    split; [by intros [? ?]|by intros [? _]].
Qed.

(** X10: in a registry that satisfies the invariant and whose workers are
    all running their loop, [Finish] of a slot completes exactly when the
    slot is occupied and its worker has been handed the [Done] sentinel with
    the signal pending; on a free slot the join fails, and on a worker
    without the sentinel the join never returns. *)
Theorem Finish_completes_iff (st : Threads.t) (i : N) (th : Thread.t) :
  Inv st → all_live st →
  Threads.slot st i = Ok th →
  ((∃ st', Threads.Finish st i = Ok st')
   ↔ occupied th ∧ Thread.pending_ th = true ∧ type (Thread.entry_ th) = THREAD_DONE)
  ∧ (Thread.tid_ th = 0%Z → Threads.Finish st i = Fail JoinFailed)
  ∧ (occupied th →
     ¬ (Thread.pending_ th = true ∧ type (Thread.entry_ th) = THREAD_DONE) →
     Threads.Finish st i = Fail Blocked).
Proof.
  intros HI Hlive Hslot. unfold Threads.slot in Hslot.
  destruct (Threads.threads_ st !! N.to_nat i) as [th0|] eqn:Hi; [|done].
  injection Hslot as ->.
  pose proof (inv_free _ HI) as Hfree. rewrite Forall_lookup in Hfree.
  specialize (Hfree _ _ Hi). cbn in Hfree.
  unfold all_live in Hlive. rewrite Forall_lookup in Hlive. specialize (Hlive _ _ Hi).
  cbn in Hlive.
  assert (Hfin : ∀ r, Thread.pthread_join th = Fail r → Threads.Finish st i = Fail r).
  { intros r Hr. unfold Threads.Finish, Threads.slot. rewrite Hi. cbn. by rewrite Hr. }
  assert (Hfree_fail : Thread.tid_ th = 0%Z → Threads.Finish st i = Fail JoinFailed).
  { intros Hz. apply Hfin. unfold Thread.pthread_join.
    apply Hfree in Hz. unfold free in Hz. by rewrite Hz. }
  split; [|split; [done|]].
  - split.
    + intros [st' (th0 & th1 & Hth0 & Hj & _)%Finish_Ok].
      assert (th0 = th) as -> by congruence.
      destruct (decide (Thread.tid_ th = 0%Z)) as [Hz|Hocc].
      { apply Hfree in Hz. unfold free in Hz. unfold Thread.pthread_join in Hj.
        by rewrite Hz in Hj. }
      split; [done|]. apply (pthread_join_live th (Hlive Hocc)). eauto.
    + intros (Hocc & Hp & Hd).
      destruct (proj2 (pthread_join_live th (Hlive Hocc)) (conj Hp Hd)) as [th1 Hj].
      unfold Threads.Finish, Threads.slot. rewrite Hi. cbn. rewrite Hj. cbn. eauto.
  - intros Hocc Hnot. apply Hfin. pose proof (Hlive Hocc) as Hl.
    destruct (Thread.pthread_join th) as [th1|r] eqn:Hj.
    + exfalso. apply Hnot, (pthread_join_live th Hl). eauto.
    + f_equal. unfold Thread.pthread_join, Thread.schedule in Hj. rewrite Hl in Hj.
      destruct (Thread.ThreadRunner 2 th) as [[th' s]|]; cbn in Hj.
      * destruct s; [by injection Hj|done].
      * rewrite Hl in Hj. by injection Hj.
Qed.

(** ** [FinishAll] once more *)

Lemma slot_Ok st i th :
  Threads.slot st i = Ok th ↔ Threads.threads_ st !! N.to_nat i = Some th.
Proof.
  unfold Threads.slot. destruct (Threads.threads_ st !! N.to_nat i); split; congruence.
Qed.

Lemma set_slot_signal_Inv st i th entry :
  Threads.threads_ st !! N.to_nat i = Some th →
  wf st → Inv st →
  wf (Threads.set_slot st i (Thread.SetPending (Thread.SetAllocEntry th entry)))
  ∧ Inv (Threads.set_slot st i (Thread.SetPending (Thread.SetAllocEntry th entry))).
Proof.
  intros Hi Hwf HI. split; [|split].
  - unfold wf, Threads.max_threads_ in *. cbn. by rewrite length_insert.
  - cbn [Threads.threads_ Threads.num_threads_ Threads.set_slot Threads.set_threads].
    pose proof (count_occupied_insert _ _ _
                  (Thread.SetPending (Thread.SetAllocEntry th entry)) Hi) as Hc.
    cbn [Thread.tid_ Thread.SetPending Thread.SetAllocEntry Thread.set_pending] in Hc.
    rewrite (inv_count _ HI). lia.
  - cbn. apply Forall_insert; [apply (inv_free _ HI)|].
    pose proof (inv_free _ HI) as Hfree. rewrite Forall_lookup in Hfree.
    apply (Hfree _ _ Hi).
Qed.

Lemma FinishAll_loop_Inv r : ∀ st i st' log,
  wf st → Inv st →
  Threads.FinishAll_loop r st i = Ok (st', log) →
  wf st' ∧ Inv st'.
Proof.
  induction r as [|r IH]; intros st i st' log Hwf HI; cbn [Threads.FinishAll_loop].
  { by intros [= <- <-]. }
  destruct (Threads.slot st i) as [th|] eqn:Hslot; cbn [mbind result_bind]; [|done].
  apply slot_Ok in Hslot.
  destruct (Thread.tid_ th =? 0)%Z; [by apply IH|].
  destruct (set_slot_signal_Inv st i th thread_done_entry Hslot Hwf HI) as [Hwf0 HI0].
  destruct (Threads.Finish _ i) as [st1|] eqn:Hfin; cbn [mbind result_bind]; [|done].
  destruct (Finish_Inv _ _ _ Hwf0 HI0 Hfin) as [Hwf1 HI1].
  destruct (Threads.FinishAll_loop r st1 (i + 1)) as [[st2 log2]|] eqn:Hrec;
    cbn [mbind result_bind]; [|done].
  intros [= <- <-]. by eapply IH.
Qed.

Lemma FinishAll_loop_zero r : ∀ st (i : nat),
  Forall (λ th, Thread.tid_ th = 0%Z) (Threads.threads_ st) →
  i + r = length (Threads.threads_ st) →
  Threads.FinishAll_loop r st (N.of_nat i) = Ok (st, []).
Proof.
  induction r as [|r IH]; intros st i Hzero Hir; [done|].
  cbn [Threads.FinishAll_loop].
  destruct (lookup_lt_is_Some_2 (Threads.threads_ st) i) as [th Hth]; [lia|].
  unfold Threads.slot. rewrite Nat2N.id, Hth. cbn [mbind result_bind].
  rewrite Forall_lookup in Hzero. rewrite (Hzero _ _ Hth). cbn.
  replace (N.of_nat i + 1)%N with (N.of_nat (S i)) by lia.
  apply IH; [by apply Forall_lookup|lia].
Qed.

(** X11: [FinishAll] leaves a registry that satisfies the invariant again,
    and a second [FinishAll] finds nothing to do: it signals and joins no
    worker and leaves the registry, total time included, as it is. *)
Theorem FinishAll_idempotent (st : Threads.t) :
  wf st → Inv st →
  ∃ st' log,
    Threads.FinishAll st = Ok (st', log)
    ∧ wf st' ∧ Inv st'
    ∧ Threads.FinishAll st' = Ok (st', []).
Proof.
  intros Hwf HI.
  destruct (FinishAll_loop_spec (length (Threads.threads_ st)) st 0)
    as (st' & log & Hrun & Hlen & _ & Hzero & _);
    [done|by apply Inv_joinable|].
  rewrite drop_0 in Hzero. exists st', log. split; [exact Hrun|].
  destruct (FinishAll_loop_Inv _ _ _ _ _ Hwf HI Hrun) as [Hwf' HI'].
  split; [done|]. split; [done|].
  by apply (FinishAll_loop_zero _ st' 0).
Qed.

Lemma list_find_head {A} (P : A → Prop) `{∀ x, Decision (P x)} (l : list A) x :
  l !! 0 = Some x → P x → list_find P l = Some (0, x).
Proof. destruct l as [|a l]; [done|]. intros [= ->] Hx. cbn. by rewrite decide_True. Qed.


(** X13: retiring one worker moves its time into the total: after the
    [Done] sentinel is handed to a running worker and its slot is finished,
    the slot is zero, [num_threads_] is one less, and the time the registry
    accounts for (total plus the times of the occupied slots) is the same
    in 64-bit arithmetic. *)
Theorem Finish_conserves_time (st : Threads.t) (i : N) (th : Thread.t) :
  wf st → Inv st →
  Threads.slot st i = Ok th →
  occupied th → live th →
  ∃ st',
    Threads.Finish
      (Threads.set_slot st i (Thread.SetPending (Thread.SetAllocEntry th thread_done_entry)))
      i = Ok st'
    ∧ tid_at st' (N.to_nat i) = Some 0%Z
    ∧ (Threads.num_threads_ st' + 1)%N = Threads.num_threads_ st
    ∧ wrap64 (accounted_time st') = wrap64 (accounted_time st).
Proof.
  intros Hwf HI Hslot%slot_Ok Hocc Hl.
  pose proof (lookup_lt_Some _ _ _ Hslot) as Hilt.
  destruct (pthread_join_done th) as (th1 & Hjoin & Htid1 & Hid1 & Htime1 & _).
  { unfold live in Hl. congruence. }
  unfold Threads.Finish, Threads.slot.
  cbn [Threads.threads_ Threads.set_slot Threads.set_threads].
  rewrite list_lookup_insert_eq by done. cbn [mbind result_bind].
  rewrite Hjoin. cbn [mbind result_bind]. eexists. split; [reflexivity|].
  unfold tid_at, accounted_time.
  cbn [Threads.threads_ Threads.num_threads_ Threads.total_time_nsecs_
       Threads.set_slot Threads.set_threads Threads.set_num_threads
       Threads.set_total_time_nsecs].
  rewrite !list_insert_insert_eq.
  pose proof (count_occupied_le (Threads.threads_ st)) as Hle.
  pose proof (count_occupied_insert _ _ _ (Thread.set_tid th1 0) Hslot) as Hc.
  cbn [Thread.tid_ Thread.set_tid] in Hc.
  rewrite (decide_False (P := Thread.tid_ th = 0%Z)), decide_True in Hc by done.
  split; [|split].
  - by rewrite list_lookup_insert_eq.
  - rewrite wrap64_pred; rewrite (inv_count _ HI); unfold wf, Threads.max_threads_ in Hwf; lia.
  - destruct (occupied_time_insert _ _ _ (Thread.set_tid th1 0) Hslot) as (A & -> & ->).
    rewrite (decide_True (P := occupied th)) by done.
    rewrite (decide_False (P := occupied (Thread.set_tid th1 0)))
      by (intros H; apply H; reflexivity).
    rewrite N.add_0_r, wrap64_add_l.
    replace (Threads.total_time_nsecs_ st + Thread.total_time_nsecs_ th1 + A)%N
      with (Threads.total_time_nsecs_ st + A + Thread.total_time_nsecs_ th1)%N by lia.
    replace (Threads.total_time_nsecs_ st + (A + Thread.total_time_nsecs_ th))%N
      with (Threads.total_time_nsecs_ st + A + Thread.total_time_nsecs_ th)%N by lia.
    by apply wrap64_add_congr.
Qed.

(** ** [WaitForAllToQuiesce] at its edges *)

Lemma WaitForAllToQuiesce_loop_overrun r : ∀ st (i : nat) (threads : N),
  i + r = length (Threads.threads_ st) →
  Forall (λ th, occupied th → live th) (drop i (Threads.threads_ st)) →
  (threads + N.of_nat (count_occupied (drop i (Threads.threads_ st)))
   < Threads.num_threads_ st)%N →
  Threads.WaitForAllToQuiesce_loop r st (N.of_nat i) threads = Fail OutOfBounds.
Proof.
  induction r as [|r IH]; intros st i threads Hir Hall Hcount;
    cbn [Threads.WaitForAllToQuiesce_loop];
    (replace (threads <? Threads.num_threads_ st)%N with true
       by (symmetry; apply N.ltb_lt; lia)); [done|].
  destruct (lookup_lt_is_Some_2 (Threads.threads_ st) i) as [th Hth]; [lia|].
  pose proof (lookup_lt_Some _ _ _ Hth) as Hilt.
  rewrite (drop_S _ _ _ Hth) in Hall, Hcount. apply Forall_cons in Hall as [Hlive Hall].
  rewrite count_occupied_cons in Hcount.
  unfold Threads.slot. rewrite Nat2N.id, Hth. cbn [mbind result_bind].
  replace (N.of_nat i + 1)%N with (N.of_nat (S i)) by lia.
  destruct (Z.eqb_spec (Thread.tid_ th) 0) as [Hz|Hz].
  - rewrite decide_True in Hcount by done. apply IH; [lia|done|exact Hcount].
  - rewrite decide_False in Hcount by done.
    destruct (WaitForReady_live th (Hlive Hz)) as (th' & -> & _).
    cbn [mbind result_bind]. rewrite IH; [done| | |].
    + cbn. rewrite length_insert. lia.
    + cbn. rewrite Nat2N.id, drop_insert_lt by lia. done.
    + cbn [Threads.threads_ Threads.num_threads_ Threads.set_slot Threads.set_threads].
      rewrite Nat2N.id, drop_insert_lt by lia. lia.
Qed.

(** X14: when [num_threads_] exceeds the number of occupied slots, the
    loop of [WaitForAllToQuiesce] does not stop at the end of the array:
    having waited on every occupied slot it reads past [threads_]. *)
Theorem WaitForAllToQuiesce_overrun (st : Threads.t) :
  all_live st →
  (N.of_nat (count_occupied (Threads.threads_ st)) < Threads.num_threads_ st)%N →
  Threads.WaitForAllToQuiesce st = Fail OutOfBounds.
Proof.
  intros Hlive Hcount.
  apply (WaitForAllToQuiesce_loop_overrun _ st 0 0); rewrite ?drop_0; done.
Qed.

Lemma WaitForReady_idle th :
  Thread.pending_ th = false → Thread.WaitForReady th = Ok th.
Proof.
  destruct th as [tid id time p e]. cbn. intros ->.
  unfold Thread.WaitForReady, Thread.schedule. cbn. by destruct id as [[]|].
Qed.

Lemma set_slot_id st i th :
  Threads.threads_ st !! N.to_nat i = Some th → Threads.set_slot st i th = st.
Proof.
  intros Hi. destruct st as [l n d t]. unfold Threads.set_slot, Threads.set_threads.
  cbn in *. by rewrite list_insert_id.
Qed.

Lemma WaitForAllToQuiesce_loop_idle r : ∀ st (i : nat) (threads : N),
  i + r = length (Threads.threads_ st) →
  Forall (λ th, occupied th → Thread.pending_ th = false) (drop i (Threads.threads_ st)) →
  (threads + N.of_nat (count_occupied (drop i (Threads.threads_ st))))%N
  = Threads.num_threads_ st →
  Threads.WaitForAllToQuiesce_loop r st (N.of_nat i) threads
  = Ok (st, EvWaitForReady <$> occupied_indices (N.of_nat i) (drop i (Threads.threads_ st))).
Proof.
  induction r as [|r IH]; intros st i threads Hir Hall Hcount.
  { rewrite !drop_ge in * by lia. cbn in Hcount. cbn [Threads.WaitForAllToQuiesce_loop].
    replace (threads <? Threads.num_threads_ st)%N with false
      by (symmetry; apply N.ltb_ge; lia). done. }
  cbn [Threads.WaitForAllToQuiesce_loop].
  destruct (N.ltb_spec threads (Threads.num_threads_ st)) as [Hlt|Hge].
  2:{ by rewrite occupied_indices_nil by lia. }
  destruct (lookup_lt_is_Some_2 (Threads.threads_ st) i) as [th Hth]; [lia|].
  rewrite (drop_S _ _ _ Hth) in Hall, Hcount |- *. apply Forall_cons in Hall as [Hidle Hall].
  rewrite count_occupied_cons in Hcount.
  unfold Threads.slot. rewrite Nat2N.id, Hth. cbn [mbind result_bind occupied_indices].
  replace (N.of_nat i + 1)%N with (N.of_nat (S i)) by lia.
  unfold occupied at 2.
  destruct (Z.eqb_spec (Thread.tid_ th) 0) as [Hz|Hz].
  - rewrite decide_True in Hcount by done.
    rewrite (decide_False (P := Thread.tid_ th ≠ 0%Z)) by (intros H; by apply H).
    by apply IH; [lia|done|].
  - rewrite decide_False in Hcount by done.
    rewrite (decide_True (P := Thread.tid_ th ≠ 0%Z)) by done.
    rewrite WaitForReady_idle by (by apply Hidle). cbn [mbind result_bind].
    rewrite set_slot_id by (by rewrite Nat2N.id).
    rewrite IH by (done || lia). done.
Qed.

Lemma Forall2_tid_count (l l' : list Thread.t) :
  Forall2 (λ th th', Thread.tid_ th' = Thread.tid_ th
                     ∧ (occupied th → Thread.pending_ th' = false)) l l' →
  count_occupied l' = count_occupied l
  ∧ (∀ i, occupied_indices i l' = occupied_indices i l)
  ∧ Forall (λ th, occupied th → Thread.pending_ th = false) l'.
Proof.
  induction 1 as [|a a' l l' [Ht Hp] _ (IH1 & IH2 & IH3)]; [done|].
  rewrite !count_occupied_cons, Ht, IH1. split; [done|]. split.
  - intros i. cbn. rewrite IH2.
    destruct (decide (occupied a')) as [Ha'|Ha'], (decide (occupied a)) as [Ha|Ha];
      unfold occupied in *;
      [done|exfalso; apply Ha; by rewrite <- Ht|exfalso; apply Ha'; by rewrite Ht|done].
  - constructor; [|done]. unfold occupied in *. rewrite Ht. done.
Qed.

(** X15: the barrier can be repeated: in a registry that satisfies the
    invariant and whose workers are all running, a second
    [WaitForAllToQuiesce] right after the first waits on the same slots and
    leaves the registry as the first one left it. *)
Theorem WaitForAllToQuiesce_idempotent (st : Threads.t) :
  Inv st → all_live st →
  ∃ st' log,
    Threads.WaitForAllToQuiesce st = Ok (st', log)
    ∧ Threads.WaitForAllToQuiesce st' = Ok (st', log).
Proof.
  intros HI Hlive.
  destruct (WaitForAllToQuiesce_loop_spec (length (Threads.threads_ st)) st 0 0)
    as (st' & log & Hrun & Hlog & Hlen & _ & Hrel & Hnum);
    [done|by rewrite drop_0|by rewrite drop_0, (inv_count _ HI)|].
  rewrite !drop_0 in *. exists st', log. split; [exact Hrun|].
  destruct (Forall2_tid_count _ _ Hrel) as (Hc & Hidx & Hidle).
  unfold Threads.WaitForAllToQuiesce.
  rewrite (WaitForAllToQuiesce_loop_idle _ st' 0 0); rewrite ?drop_0; try done.
  - by rewrite Hidx, Hlog.
  - by rewrite Hc, Hnum, (inv_count _ HI).
Qed.

(** ** The constructor *)

(** X16: the array fits the region: for every page size, slot size and
    requested maximum for which the constructor returns, the region is not
    empty and fits 64 bits, the slots of the registry fit in it, and less
    than one slot of the region is left over. *)
Theorem Threads_fits_region (host : N → bool) (p s m : N) (st : Threads.t) :
  Threads.Threads host p s m = Ok st →
  (0 < Threads.data_size_ st < 2 ^ 64)%N
  ∧ (Threads.max_threads_ st * s ≤ Threads.data_size_ st)%N
  ∧ (Threads.data_size_ st < Threads.max_threads_ st * s + s)%N
  ∧ (Threads.max_threads_ st < 2 ^ 64)%N.
Proof.
  intros (Hs & Hd & _ & ->)%Threads_Ok. unfold Threads.max_threads_. cbn.
  rewrite length_replicate, N2Nat.id.
  pose proof (region_size_lt p s m) as Hlt.
  pose proof (N.Div0.mul_div_le (Threads.region_size p s m) s) as Hle.
  pose proof (N.mul_succ_div_gt (Threads.region_size p s m) s Hs) as Hgt.
  assert (Threads.region_size p s m / s ≤ Threads.region_size p s m)%N
    by (apply N.Div0.div_le_upper_bound; nia).
  repeat split; lia.
Qed.

(** X17: for a page size that is a power of two the region size is a
    whole number of pages, whatever the slot size and the requested maximum,
    also when the product wraps around. *)
Theorem region_size_page_multiple (k s m : N) :
  (k < 64)%N →
  (Threads.region_size (2 ^ k) s m mod 2 ^ k = 0)%N.
Proof.
  intros Hk. unfold Threads.region_size.
  assert (Hp : (0 < 2 ^ k < 2 ^ 64)%N).
  { split; [apply N.neq_0_lt_0, N.pow_nonzero; lia|apply N.pow_lt_mono_r; lia]. }
  rewrite (wrap64_pred (2 ^ k)) by lia.
  replace (2 ^ k - 1)%N with (N.ones k) by (rewrite N.ones_equiv; lia).
  rewrite land_lnot64 by (unfold wrap64; apply N.mod_lt; lia).
  rewrite N.ldiff_ones_r, N.shiftl_mul_pow2. apply N.Div0.mod_mul.
Qed.

(** X18: a requested maximum of zero gives an empty region, which cannot be
    mapped: the constructor ends with "Failed to map in memory", whatever
    the page size and the host. *)
Theorem Threads_zero_fails (host : N → bool) (p s : N) :
  s ≠ 0%N → Threads.Threads host p s 0 = Fail MapFailed.
Proof.
  intros Hs. unfold Threads.Threads, mmap.
  assert (Hr : Threads.region_size p s 0 = 0%N).
  { unfold Threads.region_size. rewrite N.mul_0_l.
    replace (wrap64 0) with 0%N by done. rewrite N.add_0_l, wrap64_add_l.
    rewrite land_lnot64 by (unfold wrap64; apply N.mod_lt; lia).
    apply N.ldiff_diag. }
  rewrite Hr. by destruct (N.eqb_spec s 0).
Qed.


(** ** Bounds *)

Lemma FindThread_loop_in_bounds st tid : ∀ fuel index entries f,
  (index < Threads.max_threads_ st)%N →
  Threads.FindThread_loop fuel st tid index entries = Fail f → f = OutOfFuel.
Proof.
  induction fuel as [|fuel IH]; intros index entries f Hlt; cbn [Threads.FindThread_loop];
    destruct (entries =? 0)%N; try done; [by intros [= <-]|].
  destruct (lookup_lt_is_Some_2 (Threads.threads_ st) (N.to_nat index)) as [th Hth].
  { unfold Threads.max_threads_ in Hlt. lia. }
  unfold Threads.slot. rewrite Hth. cbn [mbind result_bind].
  destruct (Thread.tid_ th =? tid)%Z; [done|].
  apply IH. by apply next_index_lt.
Qed.

(** X20: the probes stay inside the array whatever the counters say: in a
    registry with a positive capacity neither [FindThread], nor
    [FindEmptyEntry], nor [CreateThread] reads past [threads_], for any
    value of [num_threads_] and any contents of the slots. *)
Theorem probes_in_bounds (fuel : nat) (st : Threads.t) (tid : Z) :
  wf st →
  Threads.FindThread fuel st tid ≠ Fail OutOfBounds
  ∧ Threads.FindEmptyEntry st tid ≠ Fail OutOfBounds
  ∧ Threads.CreateThread st tid ≠ Fail OutOfBounds.
Proof.
  intros Hwf. destruct (GetHashEntry_ok st tid Hwf) as [Hh Hlt].
  split; [|split].
  - unfold Threads.FindThread. rewrite Hh. cbn [mbind result_bind]. intros Hf.
    apply FindThread_loop_in_bounds in Hf; [done|].
    unfold Threads.max_threads_ in *. lia.
  - by rewrite FindEmptyEntry_scan.
  - destruct (N.eq_dec (Threads.num_threads_ st) (Threads.max_threads_ st)) as [He|Hne].
    + apply (CreateThread_too_many st tid) in He. by rewrite He.
    + destruct (CreateThread_cases st tid Hwf Hne) as [[_ ->]|(i & st' & _ & _ & ->)]; done.
Qed.

(** ** The further properties at the example registries *)

Lemma zero_created_registry_wf : wf zero_created_registry.
Proof. solve_wf. Qed.

Lemma signalled_registry_live : all_live signalled_registry.
Proof.
  unfold all_live.
  repeat (apply Forall_cons; split; [unfold occupied, live; cbn; done|]).
  by apply Forall_nil.
Qed.

Lemma replayed_registry_live : all_live replayed_registry.
Proof.
  unfold all_live.
  repeat (apply Forall_cons; split; [unfold occupied, live; cbn; done|]).
  by apply Forall_nil.
Qed.

Lemma FindThread_sound_witness :
  (3 < Threads.max_threads_ chain_registry)%N
  ∧ tid_at chain_registry (N.to_nat 3) = Some 13%Z.
Proof.
  apply (FindThread_sound 4 chain_registry 13 3). vm_compute. reflexivity.
Defined.

Lemma FindThread_diverges_witness :
  Threads.CreateThread fresh_registry 0 = Ok (zero_created_registry, 0%N)
  ∧ ∀ fuel, Threads.FindThread fuel zero_created_registry 5 = Fail OutOfFuel.
Proof.
  split; [vm_compute; reflexivity|].
  apply (FindThread_diverges zero_created_registry 5 zero_created_registry_wf).
  - done.
  - repeat (apply Forall_cons; split; [done|]). by apply Forall_nil.
  - vm_compute. discriminate.
Defined.


Lemma CreateThread_frame_witness :
  ∃ st',
    Threads.CreateThread chain_registry 9 = Ok (st', 2%N)
    ∧ tid_at chain_registry 2 = Some 0%Z
    ∧ tid_at st' 2 = Some 9%Z
    ∧ (∀ j, j ≠ 2 → Threads.threads_ st' !! j = Threads.threads_ chain_registry !! j)
    ∧ length (Threads.threads_ st') = 4
    ∧ Threads.data_size_ st' = 4096%N
    ∧ Threads.total_time_nsecs_ st' = 20%N.
Proof.
  eexists. split; [vm_compute; reflexivity|].
  apply (CreateThread_frame chain_registry 9 _ 2 chain_registry_wf).
  vm_compute. reflexivity.
Defined.


Lemma CreateThread_FindThread_other_witness :
  ∃ st',
    Threads.CreateThread chain_registry 9 = Ok (st', 2%N)
    ∧ Threads.FindThread 4 st' 13 = Threads.FindThread 4 chain_registry 13.
Proof.
  eexists. split; [vm_compute; reflexivity|].
  apply (CreateThread_FindThread_other chain_registry 9 13 _ 2 4
           chain_registry_wf chain_registry_Inv); try done.
  all: try (vm_compute; reflexivity); try (cbn; lia).
Defined.

Lemma Finish_FindThread_other_witness :
  ∃ st',
    Threads.Finish signalled_registry 2 = Ok st'
    ∧ Threads.FindThread 4 st' 13 = Threads.FindThread 4 signalled_registry 13.
Proof.
  eexists. split; [vm_compute; reflexivity|].
  apply (Finish_FindThread_other signalled_registry 2 _ 13 4
           signalled_registry_wf signalled_registry_Inv); try done.
  all: try (vm_compute; reflexivity); try (cbn; lia).
Defined.

Lemma Finish_FindThread_retired_witness :
  ∃ st',
    Threads.Finish signalled_registry 2 = Ok st'
    ∧ Threads.FindThread 4 st' 9 = Ok None.
Proof.
  eexists. split; [vm_compute; reflexivity|].
  apply (Finish_FindThread_retired signalled_registry 2 _ 9 4
           signalled_registry_wf signalled_registry_Inv).
  - vm_compute. reflexivity.
  - reflexivity.
  - intros [|[|[|[|j]]]]; cbn; intros [=]; reflexivity.
  - cbn. lia.
Defined.

Lemma ThreadRunner_one_item_witness :
  ∃ th' s,
    Thread.ThreadRunner 2 signalled_worker = Some (th', s)
    ∧ Thread.pending_ th' = false
    ∧ Thread.tid_ th' = 9%Z
    ∧ (s = Thread.Returned
       ↔ Thread.pending_ signalled_worker = true
         ∧ type (Thread.entry_ signalled_worker) = THREAD_DONE)
    ∧ Thread.total_time_nsecs_ th' = wrap64 (20 + 0).
Proof. apply (ThreadRunner_one_item 2 signalled_worker). lia. Defined.

Lemma Finish_completes_iff_witness :
  ∃ th,
    Threads.slot signalled_registry 2 = Ok th
    ∧ ((∃ st', Threads.Finish signalled_registry 2 = Ok st')
       ↔ occupied th ∧ Thread.pending_ th = true ∧ type (Thread.entry_ th) = THREAD_DONE)
    ∧ (Thread.tid_ th = 0%Z → Threads.Finish signalled_registry 2 = Fail JoinFailed)
    ∧ (occupied th →
       ¬ (Thread.pending_ th = true ∧ type (Thread.entry_ th) = THREAD_DONE) →
       Threads.Finish signalled_registry 2 = Fail Blocked).
Proof.
  eexists. split; [vm_compute; reflexivity|].
  apply (Finish_completes_iff signalled_registry 2 _
           signalled_registry_Inv signalled_registry_live).
  vm_compute. reflexivity.
Defined.

Lemma FinishAll_idempotent_witness :
  ∃ st' log,
    Threads.FinishAll chain_registry = Ok (st', log)
    ∧ wf st' ∧ Inv st'
    ∧ Threads.FinishAll st' = Ok (st', []).
Proof. exact (FinishAll_idempotent chain_registry chain_registry_wf chain_registry_Inv). Defined.


Lemma Finish_conserves_time_witness :
  ∃ st',
    Threads.Finish
      (Threads.set_slot replayed_registry 2
         (Thread.SetPending
            (Thread.SetAllocEntry
               {| Thread.tid_ := 9; Thread.thread_id_ := Some Thread.Running;
                  Thread.total_time_nsecs_ := 20; Thread.pending_ := false;
                  Thread.entry_ := operation 20 |} thread_done_entry)))
      2 = Ok st'
    ∧ tid_at st' (N.to_nat 2) = Some 0%Z
    ∧ (Threads.num_threads_ st' + 1)%N = 3%N
    ∧ wrap64 (accounted_time st') = wrap64 (accounted_time replayed_registry).
Proof.
  apply (Finish_conserves_time replayed_registry 2 _
           replayed_registry_wf replayed_registry_Inv).
  - vm_compute. reflexivity.
  - unfold occupied. cbn. done.
  - reflexivity.
Defined.

Lemma WaitForAllToQuiesce_overrun_witness :
  Threads.WaitForAllToQuiesce zero_created_registry = Fail OutOfBounds.
Proof.
  apply (WaitForAllToQuiesce_overrun zero_created_registry).
  - unfold all_live.
    repeat (apply Forall_cons; split; [intros Hocc; by destruct Hocc|]).
    by apply Forall_nil.
  - vm_compute. reflexivity.
Defined.

Lemma WaitForAllToQuiesce_idempotent_witness :
  ∃ st' log,
    Threads.WaitForAllToQuiesce chain_registry = Ok (st', log)
    ∧ Threads.WaitForAllToQuiesce st' = Ok (st', log).
Proof.
  exact (WaitForAllToQuiesce_idempotent chain_registry chain_registry_Inv
           chain_registry_live).
Defined.

Lemma Threads_fits_region_witness :
  (0 < 4096 < 2 ^ 64)%N
  ∧ (Threads.max_threads_ fresh_registry * 1024 ≤ 4096)%N
  ∧ (4096 < Threads.max_threads_ fresh_registry * 1024 + 1024)%N
  ∧ (Threads.max_threads_ fresh_registry < 2 ^ 64)%N.
Proof.
  apply (Threads_fits_region host47 4096 1024 4 fresh_registry). vm_compute. reflexivity.
Defined.

Lemma region_size_page_multiple_witness :
  (Threads.region_size (2 ^ 12) 96 8 mod 2 ^ 12 = 0)%N.
Proof. apply (region_size_page_multiple 12 96 8). lia. Defined.

Lemma Threads_zero_fails_witness : Threads.Threads host47 4096 96 0 = Fail MapFailed.
Proof. apply (Threads_zero_fails host47 4096 96). discriminate. Defined.


Lemma probes_in_bounds_witness :
  Threads.FindThread 0 zero_created_registry 5 ≠ Fail OutOfBounds
  ∧ Threads.FindEmptyEntry zero_created_registry 5 ≠ Fail OutOfBounds
  ∧ Threads.CreateThread zero_created_registry 5 ≠ Fail OutOfBounds.
Proof. exact (probes_in_bounds 0 zero_created_registry 5 zero_created_registry_wf). Defined.
